(** * logic_add: adding two integers by simulating logic gates

    A shallow embedding of [src/logic_add.py].  Python integers are [Z];
    the objects of the program (wires, converters) live in a store indexed
    by allocation order, and every method that reads or writes an object is
    a computation in a state-and-exception monad over that store. *)

From Stdlib Require Import ZArith Lia List.
From stdpp Require Import base option list gmap strings.

Local Open Scope Z_scope.

(** ** Bit-vector codec *)

Module Codec.

(** The [while len(result) < num_bits] loop of [to_binary].  The counter
    bounds the number of iterations; [to_binary] supplies [num_bits] of
    them, which is exactly what the guard allows. *)
Fixpoint to_binary_loop (fuel : nat) (n num_bits : Z) (result : list Z) : list Z :=
  match fuel with
  | O => result
  | S fuel' =>
      if Z.of_nat (length result) <? num_bits
      then to_binary_loop fuel' (Z.shiftr n 1) num_bits (result ++ [Z.land n 1])
      else result
  end.

Definition to_binary (n num_bits : Z) : list Z :=
  to_binary_loop (Z.to_nat num_bits) n num_bits [].

(** [from_binary]: fold over [lst[::-1]], shifting left and or-ing. *)
Definition from_binary (lst : list Z) : Z :=
  fold_left (fun result d => Z.lor (Z.shiftl result 1) d) (rev lst) 0.

(** The digits [n & 1], [(n >> 1) & 1], ... that the loop appends. *)
Fixpoint low_bits (k : nat) (n : Z) : list Z :=
  match k with
  | O => []
  | S k' => Z.land n 1 :: low_bits k' (Z.shiftr n 1)
  end.

(** Little-endian value of a digit list: the sum of [d_i * 2^i]. *)
Fixpoint le_value (l : list Z) : Z :=
  match l with
  | [] => 0
  | d :: l' => d + 2 * le_value l'
  end.

Definition is_bit (d : Z) : Prop := d = 0 \/ d = 1.

End Codec.

(** ** The object store and the simulation monad *)

Module Sim.

Import Codec.

(** The three gate classes, [AndGate], [OrGate] and [XorGate]. *)
Inductive Operation := And | Or | Xor.

(** What a wire's observer list can hold.  A gate is an immutable object
    (its three wire references never change), so it is identified with its
    fields; a converter has mutable fields and is referenced through the
    store. *)
Inductive Observer :=
| Gate (op : Operation) (input1 input2 output : nat)
| ConverterRef (c : nat)
| DisplayOf (name : string) (wire : nat).

(** A [Wire] object: [__value] (absent until the first [set]) and the
    [__observers] list inherited from [Observable]. *)
Record Wire := mkWire { w_value : option Z; w_observers : list Observer }.

(** A [Converter] object: [__outputs], [__result], [__sign]. *)
Record Converter := mkConverter {
  c_outputs : list nat; c_result : option Z; c_sign : option Z }.

(** The store.  [stdout] collects what [Display.update] prints.  [calls] is
    a ghost history of the [update] invocations made by
    [notify_observers]; no operation reads it. *)
Record Store := mkStore {
  wires : gmap nat Wire;
  next_wire : nat;
  converters : gmap nat Converter;
  next_converter : nat;
  stdout : list (string * Z);
  calls : list Observer }.

Definition empty_store : Store := mkStore ∅ 0 ∅ 0 [] [].

Definition wire_at (s : Store) (w : nat) : Wire :=
  default (mkWire None []) (wires s !! w).
Definition value_of (s : Store) (w : nat) : option Z := w_value (wire_at s w).
Definition observers_of (s : Store) (w : nat) : list Observer :=
  w_observers (wire_at s w).
Definition converter_at (s : Store) (c : nat) : Converter :=
  default (mkConverter [] None None) (converters s !! c).

Definition put_wire (w : nat) (x : Wire) (s : Store) : Store :=
  mkStore (<[w:=x]> (wires s)) (next_wire s) (converters s)
          (next_converter s) (stdout s) (calls s).
Definition put_converter (c : nat) (x : Converter) (s : Store) : Store :=
  mkStore (wires s) (next_wire s) (<[c:=x]> (converters s))
          (next_converter s) (stdout s) (calls s).

(** [self.__value = value] *)
Definition write_value (w : nat) (v : Z) (s : Store) : Store :=
  put_wire w (mkWire (Some v) (observers_of s w)) s.
(** [self.__observers.append(observer)] *)
Definition push_observer (w : nat) (o : Observer) (s : Store) : Store :=
  put_wire w (mkWire (value_of s w) (observers_of s w ++ [o])) s.
(** [Wire()]: a new object with an empty observer list and no value. *)
Definition alloc_wire (s : Store) : Store :=
  mkStore (<[next_wire s := mkWire None []]> (wires s)) (S (next_wire s))
          (converters s) (next_converter s) (stdout s) (calls s).
Definition alloc_converter (outs : list nat) (s : Store) : Store :=
  mkStore (wires s) (next_wire s)
          (<[next_converter s := mkConverter outs None None]> (converters s))
          (S (next_converter s)) (stdout s) (calls s).
(** [self.__result = r] and [self.__sign = sg] *)
Definition write_result (c : nat) (r : Z) (s : Store) : Store :=
  put_converter c (mkConverter (c_outputs (converter_at s c)) (Some r)
                               (c_sign (converter_at s c))) s.
Definition write_sign (c : nat) (sg : Z) (s : Store) : Store :=
  put_converter c (mkConverter (c_outputs (converter_at s c))
                               (c_result (converter_at s c)) (Some sg)) s.
Definition print (name : string) (v : Z) (s : Store) : Store :=
  mkStore (wires s) (next_wire s) (converters s) (next_converter s)
          (stdout s ++ [(name, v)]) (calls s).
Definition record_call (o : Observer) (s : Store) : Store :=
  mkStore (wires s) (next_wire s) (converters s) (next_converter s)
          (stdout s) (calls s ++ [o]).

(** Exceptions the program can raise, and the outcome of a call: a value,
    an exception, or a recursion deeper than the bound given to it. *)
Inductive Exception := AssertionError | AttributeError | IndexError.

Inductive Outcome (A : Type) :=
| Done (a : A)
| Raise (e : Exception)
| OutOfFuel.
Arguments Done {A} a.
Arguments Raise {A} e.
Arguments OutOfFuel {A}.

Definition M (A : Type) : Type := Store -> Store * Outcome A.

Definition ret {A} (a : A) : M A := fun s => (s, Done a).
Definition raise {A} (e : Exception) : M A := fun s => (s, Raise e).
Definition out_of_fuel {A} : M A := fun s => (s, OutOfFuel).
Definition bind {A B} (m : M A) (k : A -> M B) : M B :=
  fun s =>
    match m s with
    | (s', Done a) => k a s'
    | (s', Raise e) => (s', Raise e)
    | (s', OutOfFuel) => (s', OutOfFuel)
    end.
Definition modify (f : Store -> Store) : M unit := fun s => (f s, Done tt).
Definition gets {A} (f : Store -> A) : M A := fun s => (s, Done (f s)).

Notation "x <- m ;; k" := (bind m (fun x => k))
  (at level 20, m at level 99, k at level 200).
Notation "m ;;; k" := (bind m (fun _ => k))
  (at level 100, k at level 200, right associativity).

(** A list comprehension [[f(x) for x in l]]. *)
Fixpoint list_comp {A B} (f : A -> M B) (l : list A) : M (list B) :=
  match l with
  | [] => ret []
  | x :: l' => y <- f x ;; ys <- list_comp f l' ;; ret (y :: ys)
  end.

Fixpoint forM_ {A} (l : list A) (body : A -> M unit) : M unit :=
  match l with
  | [] => ret tt
  | x :: l' => body x ;;; forM_ l' body
  end.

Fixpoint foldM {A B} (body : A -> B -> M A) (acc : A) (l : list B) : M A :=
  match l with
  | [] => ret acc
  | x :: l' => acc' <- body acc x ;; foldM body acc' l'
  end.

(** [lst[i]] for [i >= 0]. *)
Definition index {A} (l : list A) (i : nat) : M A :=
  match l !! i with
  | Some x => ret x
  | None => raise IndexError
  end.

(** *** class Observable / class Wire *)

Definition Wire_new : M nat :=
  fun s => (alloc_wire s, Done (next_wire s)).

Definition Observable_add_observer (w : nat) (o : Observer) : M unit :=
  modify (push_observer w o).

Definition Wire_is_set (w : nat) : M bool :=
  gets (fun s => bool_decide (is_Some (value_of s w))).

Definition Wire_get_value (w : nat) : M Z :=
  fun s => match value_of s w with
           | Some v => (s, Done v)
           | None => (s, Raise AttributeError)
           end.

(** [value in [0, 1]] *)
Definition in_0_1 (v : Z) : bool := (v =? 0) || (v =? 1).

(** *** class Display *)

Definition Display_init (name : string) (w : nat) : M Observer :=
  Observable_add_observer w (DisplayOf name w) ;;; ret (DisplayOf name w).

Definition Display_update (name : string) (w : nat) : M unit :=
  v <- Wire_get_value w ;; modify (print name v).

(** *** class DoubleInputGate and its subclasses *)

Definition operation (op : Operation) (x y : Z) : Z :=
  match op with
  | And => Z.land x y
  | Or => Z.lor x y
  | Xor => Z.lxor x y
  end.

Definition DoubleInputGate_init (op : Operation) (input1 input2 output : nat)
  : M Observer :=
  let self := Gate op input1 input2 output in
  Observable_add_observer input1 self ;;;
  Observable_add_observer input2 self ;;;
  ret self.

(** [update], with the [set] method of the output wire passed in: the two
    methods call each other, and [Wire_set] below ties the knot. *)
Definition DoubleInputGate_update (set : nat -> Z -> M unit)
    (op : Operation) (input1 input2 output : nat) : M unit :=
  b1 <- Wire_is_set input1 ;;
  if b1 then
    b2 <- Wire_is_set input2 ;;
    if b2 then
      x <- Wire_get_value input1 ;;
      y <- Wire_get_value input2 ;;
      set output (operation op x y)
    else ret tt
  else ret tt.

(** *** class Converter *)

Definition Converter_init (outs : list nat) : M nat :=
  c <- (fun s => (alloc_converter outs s, Done (next_converter s))) ;;
  forM_ outs (fun output => Observable_add_observer output (ConverterRef c)) ;;;
  ret c.

Definition Converter_update (c : nat) : M unit :=
  outs <- gets (fun s => c_outputs (converter_at s c)) ;;
  flags <- list_comp Wire_is_set outs ;;
  if forallb id flags then
    binary_list <- list_comp Wire_get_value outs ;;
    modify (write_result c (from_binary binary_list)) ;;;
    match last binary_list with
    | Some sg => modify (write_sign c sg)
    | None => raise IndexError
    end
  else ret tt.

Definition Converter_get_result (c : nat) : M Z :=
  fun s => match c_result (converter_at s c) with
           | Some r => (s, Done r)
           | None => (s, Raise AttributeError)
           end.

Definition Converter_get_sign (c : nat) : M Z :=
  fun s => match c_sign (converter_at s c) with
           | Some r => (s, Done r)
           | None => (s, Raise AttributeError)
           end.

(** *** Notification and [Wire.set] *)

(** [observer.update()]: dispatch on the observer's class. *)
Definition update (set : nat -> Z -> M unit) (o : Observer) : M unit :=
  match o with
  | Gate op input1 input2 output =>
      DoubleInputGate_update set op input1 input2 output
  | ConverterRef c => Converter_update c
  | DisplayOf name w => Display_update name w
  end.

(** [notify_observers]: the [for observer in self.__observers] loop.  No
    [update] method adds an observer, so iterating over the list read at
    the start of the loop is the same as iterating over the live list. *)
Fixpoint Observable_notify_observers (set : nat -> Z -> M unit)
    (obs : list Observer) : M unit :=
  match obs with
  | [] => ret tt
  | o :: obs' =>
      modify (record_call o) ;;;
      update set o ;;;
      Observable_notify_observers set obs'
  end.

(** [Wire.set].  [fuel] bounds the depth of nested [set] calls. *)
Fixpoint Wire_set (fuel : nat) (w : nat) (value : Z) : M unit :=
  match fuel with
  | O => out_of_fuel
  | S fuel' =>
      if in_0_1 value then
        modify (write_value w value) ;;;
        obs <- gets (fun s => observers_of s w) ;;
        Observable_notify_observers (Wire_set fuel') obs
      else raise AssertionError
  end.

(** *** HalfAdder, FullAdder, build_circuit, add *)

Definition HalfAdder_init (input1 input2 output carry_out : nat) : M unit :=
  DoubleInputGate_init Xor input1 input2 output ;;;
  DoubleInputGate_init And input1 input2 carry_out ;;;
  ret tt.

Definition FullAdder_init (input1 input2 carry_in output carry_out : nat)
  : M unit :=
  wire1 <- Wire_new ;;
  wire2 <- Wire_new ;;
  wire3 <- Wire_new ;;
  HalfAdder_init input1 input2 wire1 wire2 ;;;
  HalfAdder_init carry_in wire1 output wire3 ;;;
  DoubleInputGate_init Or wire3 wire2 carry_out ;;;
  ret tt.

(** The body of the [for i in range(n)] loop of [build_circuit]; the
    accumulator is [(inputs1, inputs2, outputs, previous_carry)]. *)
Definition build_circuit_body
    (acc : list nat * list nat * list nat * nat) (i : nat)
  : M (list nat * list nat * list nat * nat) :=
  let '(inputs1, inputs2, outs, previous_carry) := acc in
  w <- Wire_new ;; let inputs1 := inputs1 ++ [w] in
  w <- Wire_new ;; let inputs2 := inputs2 ++ [w] in
  w <- Wire_new ;; let outs := outs ++ [w] in
  new_carry <- Wire_new ;;
  input1 <- index inputs1 i ;;
  input2 <- index inputs2 i ;;
  output <- index outs i ;;
  FullAdder_init input1 input2 previous_carry output new_carry ;;;
  ret (inputs1, inputs2, outs, new_carry).

Definition build_circuit (fuel : nat) (n : Z)
  : M (list nat * list nat * list nat) :=
  first_carry <- Wire_new ;;
  Wire_set fuel first_carry 0 ;;;
  acc <- foldM build_circuit_body ([], [], [], first_carry)
               (seq 0 (Z.to_nat n)) ;;
  let '(inputs1, inputs2, outs, _) := acc in
  ret (inputs1, inputs2, outs).

(** [zip] of four lists: as long as the shortest. *)
Fixpoint zip4 {A B C D} (l1 : list A) (l2 : list B) (l3 : list C)
    (l4 : list D) : list (A * B * C * D) :=
  match l1, l2, l3, l4 with
  | a :: l1', b :: l2', c :: l3', d :: l4' =>
      (a, b, c, d) :: zip4 l1' l2' l3' l4'
  | _, _, _, _ => []
  end.

(** The first half of [add]: build, attach the converter, drive the
    inputs.  Returns the output wires and the converter. *)
Definition add_drive (fuel : nat) (a b num_bits : Z) : M (list nat * nat) :=
  circuit <- build_circuit fuel num_bits ;;
  let '(inputs1, inputs2, outs) := circuit in
  r <- Converter_init outs ;;
  forM_ (zip4 inputs1 inputs2 (to_binary a num_bits) (to_binary b num_bits))
        (fun '(input1, input2, dig1, dig2) =>
           Wire_set fuel input1 dig1 ;;; Wire_set fuel input2 dig2) ;;;
  ret (outs, r).

(** The second half: read [r.sign] and [r.result]. *)
Definition add_read (num_bits : Z) (r : nat) : M Z :=
  sg <- Converter_get_sign r ;;
  if sg =? 1 then
    res <- Converter_get_result r ;;
    ret (- (2 ^ num_bits - res))
  else Converter_get_result r.

Definition add (fuel : nat) (a b num_bits : Z) : M Z :=
  driven <- add_drive fuel a b num_bits ;;
  add_read num_bits (snd driven).

(** The values of a list of wires, when all of them are set. *)
Fixpoint read_all (s : Store) (ws : list nat) : option (list Z) :=
  match ws with
  | [] => Some []
  | w :: ws' =>
      match value_of s w, read_all s ws' with
      | Some v, Some vs => Some (v :: vs)
      | _, _ => None
      end
  end.

(** The ghost history after a run of [update] calls. *)
Definition record_calls (obs : list Observer) (s : Store) : Store :=
  fold_left (fun s o => record_call o s) obs s.

(** An observer that does nothing when notified in [s]: a gate one of
    whose inputs is not set. *)
Definition idle_in (s : Store) (o : Observer) : Prop :=
  match o with
  | Gate _ input1 input2 _ =>
      value_of s input1 = None \/ value_of s input2 = None
  | _ => False
  end.

Definition run {A} (m : M A) : Outcome A := snd (m empty_store).

End Sim.

(** ** The ripple-carry circuit: where its wires live and what they carry *)

Module Circuit.

Import Sim Codec.

Local Open Scope nat_scope.

(** One full adder as a function of its three input bits, gate by gate:
    [wire1 = x ^ y], [wire2 = x & y], [output = c ^ wire1],
    [wire3 = c & wire1], [carry_out = wire3 | wire2]. *)
Definition full_adder_sum (x y c : Z) : Z :=
  operation Xor c (operation Xor x y).
Definition full_adder_carry (x y c : Z) : Z :=
  operation Or (operation And c (operation Xor x y)) (operation And x y).

(** The carry into stage [k] and the sum bit of stage [k], for operand
    digits [x 0, x 1, ...] and [y 0, y 1, ...]. *)
Fixpoint carry_at (x y : nat -> Z) (k : nat) : Z :=
  match k with
  | O => 0%Z
  | S k' => full_adder_carry (x k') (y k') (carry_at x y k')
  end.
Definition sum_at (x y : nat -> Z) (k : nat) : Z :=
  full_adder_sum (x k) (y k) (carry_at x y k).

(** Digit [i] of the two's-complement representation of [a]: what
    [to_binary] puts at position [i]. *)
Definition digit (a : Z) (i : nat) : Z := Z.b2z (Z.testbit a (Z.of_nat i)).

(** The sum of [a] and [b] wrapped to [num_bits] bits and read as a signed
    number. *)
Definition wrapped_sum (a b num_bits : Z) : Z :=
  let s := ((a + b) mod 2 ^ num_bits)%Z in
  if (s <? 2 ^ (num_bits - 1))%Z then s else (s - 2 ^ num_bits)%Z.

Section Layout.

(** [b] is the identifier of the first wire [build_circuit] allocates. *)
Variable b : nat.

(** Allocation order: [first_carry], then per stage [inputs1[i]],
    [inputs2[i]], [outputs[i]], [new_carry], [wire1], [wire2], [wire3]. *)
Definition in1 (i : nat) : nat := b + 7 * i + 1.
Definition in2 (i : nat) : nat := b + 7 * i + 2.
Definition out (i : nat) : nat := b + 7 * i + 3.
Definition w1 (i : nat) : nat := b + 7 * i + 5.
Definition w2 (i : nat) : nat := b + 7 * i + 6.
Definition w3 (i : nat) : nat := b + 7 * i + 7.
(** The carry into stage [i]: [first_carry] for [i = 0], the [new_carry]
    of stage [i - 1] otherwise. *)
Definition carry (i : nat) : nat := b + (7 * i - 3).

(** The observer lists of the first [n] stages; every output wire has the
    observers [outobs]. *)
Record Wired (n : nat) (outobs : list Observer) (s : Store) : Prop := {
  wired_in1 : forall i, i < n ->
    observers_of s (in1 i)
    = [Gate Xor (in1 i) (in2 i) (w1 i); Gate And (in1 i) (in2 i) (w2 i)];
  wired_in2 : forall i, i < n ->
    observers_of s (in2 i)
    = [Gate Xor (in1 i) (in2 i) (w1 i); Gate And (in1 i) (in2 i) (w2 i)];
  wired_carry : forall i, i < n ->
    observers_of s (carry i)
    = [Gate Xor (carry i) (w1 i) (out i); Gate And (carry i) (w1 i) (w3 i)];
  wired_w1 : forall i, i < n ->
    observers_of s (w1 i)
    = [Gate Xor (carry i) (w1 i) (out i); Gate And (carry i) (w1 i) (w3 i)];
  wired_w3 : forall i, i < n ->
    observers_of s (w3 i) = [Gate Or (w3 i) (w2 i) (carry (S i))];
  wired_w2 : forall i, i < n ->
    observers_of s (w2 i) = [Gate Or (w3 i) (w2 i) (carry (S i))];
  wired_out : forall i, i < n -> observers_of s (out i) = outobs;
  wired_last : observers_of s (carry n) = []
}.

(** The wire values once the first [k] of [n] stages have been driven with
    the digits [x] and [y]. *)
Record Driven (n k : nat) (x y : nat -> Z) (s : Store) : Prop := {
  driven_carry : value_of s (carry k) = Some (carry_at x y k);
  driven_out : forall i, i < k -> value_of s (out i) = Some (sum_at x y i);
  idle_in1 : forall i, k <= i < n -> value_of s (in1 i) = None;
  idle_in2 : forall i, k <= i < n -> value_of s (in2 i) = None;
  idle_out : forall i, k <= i < n -> value_of s (out i) = None;
  idle_w1 : forall i, k <= i < n -> value_of s (w1 i) = None;
  idle_w2 : forall i, k <= i < n -> value_of s (w2 i) = None;
  idle_w3 : forall i, k <= i < n -> value_of s (w3 i) = None;
  idle_carry : forall i, k <= i < n -> value_of s (carry (S i)) = None
}.

End Layout.

(** What the converter holds once all [n] stages have been driven. *)
Definition Settled (n c : nat) (x y : nat -> Z) (s : Store) : Prop :=
  c_result (converter_at s c)
    = Some (from_binary (map (sum_at x y) (seq 0 n)))
  /\ c_sign (converter_at s c) = Some (sum_at x y (n - 1)).


End Circuit.
(** ** What a cascade can do to the store *)

Module Steps.

Import Sim Codec.

(** The store updates that [Wire.set] and the [update] methods it reaches
    perform, each with the condition under which the code performs it. *)
Inductive prim_step : Store -> Store -> Prop :=
| step_write_value w v s :
    is_bit v -> prim_step s (write_value w v s)
| step_record_call o s :
    prim_step s (record_call o s)
| step_print name w v s :
    value_of s w = Some v -> prim_step s (print name v s)
| step_write_result c bl s :
    read_all s (c_outputs (converter_at s c)) = Some bl ->
    prim_step s (write_result c (from_binary bl) s)
| step_write_sign c bl sg s :
    read_all s (c_outputs (converter_at s c)) = Some bl ->
    last bl = Some sg ->
    c_result (converter_at s c) = Some (from_binary bl) ->
    prim_step s (write_sign c sg s).

(** A converter holds a result or a sign only if all its wires are set. *)
Definition settled_only (c : nat) (s : Store) : Prop :=
  is_Some (c_result (converter_at s c)) \/ is_Some (c_sign (converter_at s c)) ->
  is_Some (read_all s (c_outputs (converter_at s c))).

(** A converter is up to date when, all its wires being set, its result is
    the value they decode to and its sign is the value of the last one. *)
Definition up_to_date (c : nat) (s : Store) : Prop :=
  forall bl,
    read_all s (c_outputs (converter_at s c)) = Some bl ->
    c_result (converter_at s c) = Some (from_binary bl)
    /\ c_sign (converter_at s c) = last bl.

(** A converter is registered when it observes every wire of its list, as
    [Converter.__init__] arranges. *)
Definition registered (c : nat) (s : Store) : Prop :=
  forall u, u ∈ c_outputs (converter_at s c) ->
            ConverterRef c ∈ observers_of s u.

(** [del self.__value]: the same wire without a value. *)
Definition clear_value (w : nat) (s : Store) : Store :=
  put_wire w (mkWire None (observers_of s w)) s.

(** A sequence of [wire.set(value)] calls made one after the other, each
    with its own recursion bound; a call that raises does not stop the
    caller from making the next one. *)
Definition run_sets (l : list (nat * nat * Z)) (s : Store) : Store :=
  fold_left (fun st '(fuel, w, v) => fst (Wire_set fuel w v st)) l s.

(** The same calls as consecutive statements of one program: the first
    call that does not return ends the program. *)
Definition do_sets (l : list (nat * nat * Z)) : M unit :=
  forM_ l (fun '(fuel, w, v) => Wire_set fuel w v).

(** An observer found on wire [w] is in order when, for a gate, its output
    wire ranks below [w] (the circuit has no feedback); for a converter,
    its wire list is not empty; for a display, it shows [w] itself. *)
Definition observer_okb (rk : nat -> nat) (s : Store) (w : nat)
    (o : Observer) : bool :=
  match o with
  | Gate _ _ _ output => bool_decide (rk output < rk w)%nat
  | ConverterRef c =>
      match c_outputs (converter_at s c) with [] => false | _ => true end
  | DisplayOf _ u => bool_decide (u = w)
  end.

Definition wire_okb (rk : nat -> nat) (s : Store) (w : nat) (x : Wire)
  : bool :=
  from_option in_0_1 true (w_value x)
  && forallb (observer_okb rk s w) (w_observers x).

Definition wf_check (rk : nat -> nat) (s : Store) : bool :=
  forallb (fun p => wire_okb rk s (fst p) (snd p)) (map_to_list (wires s)).

(** The same, wire by wire. *)
Definition WfP (rk : nat -> nat) (s : Store) : Prop :=
  forall w, wire_okb rk s w (wire_at s w) = true.

(** What a completed [set] of wire [w] to [v] leaves behind: the value is
    recorded, no wire of the same or a higher rank has changed, and the
    observers of [w] have been notified in order. *)
Definition set_result (rk : nat -> nat) (w : nat) (v : Z) (s s' : Store)
  : Prop :=
  value_of s' w = Some v
  /\ (forall u, (rk w <= rk u)%nat -> u <> w -> value_of s' u = value_of s u)
  /\ exists tr, calls s' = calls s ++ tr
                /\ observers_of s w `sublist_of` tr.

End Steps.
(** ** Small stores used as examples *)

(** A wire that has been set once, with no observer on it. *)
Definition once_set : Sim.Store :=
  fst (Sim.Wire_set 1 0 0 (Sim.alloc_wire Sim.empty_store)).

(** An AND gate with a display on its output, both inputs set to 1. *)
Definition and_gate_fired : Sim.Store :=
  fst ((Sim.bind Sim.Wire_new (fun in1 =>
        Sim.bind Sim.Wire_new (fun in2 =>
        Sim.bind Sim.Wire_new (fun out =>
        Sim.bind (Sim.DoubleInputGate_init Sim.And in1 in2 out) (fun _ =>
        Sim.bind (Sim.Display_init "Out" out) (fun _ =>
        Sim.bind (Sim.Wire_set 2 in1 1) (fun _ =>
        Sim.Wire_set 2 in2 1)))))))
       Sim.empty_store).

(** Three new wires, as in the doctest of [Converter]. *)
Definition three_wires : Sim.Store :=
  Sim.alloc_wire (Sim.alloc_wire (Sim.alloc_wire Sim.empty_store)).

(** ** A full adder on its own: the doctest of [FullAdder], for any input
    bits and any order of setting the three inputs *)

Inductive AdderInput := Input1 | Input2 | CarryIn.

Definition full_adder_trial (fuel : nat) (order : list AdderInput)
    (x y c : Z) : Sim.M (nat * nat) :=
  Sim.bind Sim.Wire_new (fun in1 =>
  Sim.bind Sim.Wire_new (fun in2 =>
  Sim.bind Sim.Wire_new (fun carry_in =>
  Sim.bind Sim.Wire_new (fun out =>
  Sim.bind Sim.Wire_new (fun carry_out =>
  Sim.bind (Sim.FullAdder_init in1 in2 carry_in out carry_out) (fun _ =>
  Sim.bind
    (Sim.forM_ order (fun i =>
       match i with
       | Input1 => Sim.Wire_set fuel in1 x
       | Input2 => Sim.Wire_set fuel in2 y
       | CarryIn => Sim.Wire_set fuel carry_in c
       end))
    (fun _ => Sim.ret (out, carry_out)))))))).

(** ** A gate on its own, and a half adder on its own: the doctests of
    [AndGate], [OrGate], [XorGate] and [HalfAdder], for any input bits and
    any choice of the inputs to set *)

Inductive GateInput := GateInput1 | GateInput2.

Definition gate_trial (fuel : nat) (op : Sim.Operation)
    (order : list GateInput) (x y : Z) : Sim.M nat :=
  Sim.bind Sim.Wire_new (fun in1 =>
  Sim.bind Sim.Wire_new (fun in2 =>
  Sim.bind Sim.Wire_new (fun out =>
  Sim.bind (Sim.DoubleInputGate_init op in1 in2 out) (fun _ =>
  Sim.bind
    (Sim.forM_ order (fun i =>
       match i with
       | GateInput1 => Sim.Wire_set fuel in1 x
       | GateInput2 => Sim.Wire_set fuel in2 y
       end))
    (fun _ => Sim.ret out))))).

Definition half_adder_trial (fuel : nat) (order : list GateInput)
    (x y : Z) : Sim.M (nat * nat) :=
  Sim.bind Sim.Wire_new (fun in1 =>
  Sim.bind Sim.Wire_new (fun in2 =>
  Sim.bind Sim.Wire_new (fun out =>
  Sim.bind Sim.Wire_new (fun carry =>
  Sim.bind (Sim.HalfAdder_init in1 in2 out carry) (fun _ =>
  Sim.bind
    (Sim.forM_ order (fun i =>
       match i with
       | GateInput1 => Sim.Wire_set fuel in1 x
       | GateInput2 => Sim.Wire_set fuel in2 y
       end))
    (fun _ => Sim.ret (out, carry))))))).

(** A new wire with two displays on it, as in the doctest of [Wire]. *)
Definition two_displays : Sim.Store :=
  fst ((Sim.bind Sim.Wire_new (fun wire =>
        Sim.bind (Sim.Display_init "out1" wire) (fun _ =>
        Sim.Display_init "out2" wire)))
       Sim.empty_store).


(** A wire observed by a converter built over no wire at all:
    [wire = Wire(); wire.add_observer(Converter([]))]. *)
Definition empty_converter_observed : Sim.Store :=
  fst ((Sim.bind Sim.Wire_new (fun wire =>
        Sim.bind (Sim.Converter_init []) (fun c =>
        Sim.Observable_add_observer wire (Sim.ConverterRef c))))
       Sim.empty_store).

(** Three wires that are all set to 1 before a converter is built over
    them. *)
Definition built_late : Sim.Store * Sim.Outcome nat :=
  Sim.bind Sim.Wire_new (fun w0 =>
  Sim.bind Sim.Wire_new (fun w1 =>
  Sim.bind Sim.Wire_new (fun w2 =>
  Sim.bind (Sim.Wire_set 1 w0 1) (fun _ =>
  Sim.bind (Sim.Wire_set 1 w1 1) (fun _ =>
  Sim.bind (Sim.Wire_set 1 w2 1) (fun _ =>
  Sim.Converter_init [w0; w1; w2]))))))
  Sim.empty_store.

(** The ranking used for [and_gate_fired]: the inputs above the output. *)
Definition and_gate_rank (w : nat) : nat :=
  if (w <? 2)%nat then 1%nat else 0%nat.
(** ** Facts about the codec *)

Module CodecFacts.

Import Codec.

Lemma land_1_bit n : is_bit (Z.land n 1).
Proof.
  change 1 with (Z.ones 1). rewrite Z.land_ones by lia.
  change (2 ^ 1) with 2. unfold is_bit.
  pose proof (Z.mod_pos_bound n 2). lia.
Qed.

Lemma land_1_mod n : Z.land n 1 = n mod 2.
Proof. change 1 with (Z.ones 1). now rewrite Z.land_ones by lia. Qed.

Lemma shiftr_1_div n : Z.shiftr n 1 = n / 2.
Proof. now rewrite Z.shiftr_div_pow2 by lia. Qed.

Lemma to_binary_loop_low_bits fuel : forall n num_bits result,
  Z.of_nat (length result) + Z.of_nat fuel <= num_bits ->
  to_binary_loop fuel n num_bits result = result ++ low_bits fuel n.
Proof.
  induction fuel as [|fuel IH]; intros n num_bits result Hlen; simpl.
  - now rewrite app_nil_r.
  - destruct (Z.ltb_spec (Z.of_nat (length result)) num_bits) as [_|Hge]; [|lia].
    rewrite IH.
    + now rewrite <- app_assoc.
    + rewrite length_app. simpl. lia.
Qed.

Lemma to_binary_low_bits n num_bits :
  to_binary n num_bits = low_bits (Z.to_nat num_bits) n.
Proof.
  unfold to_binary. destruct (Z.leb_spec 0 num_bits) as [Hnb|Hneg].
  - rewrite to_binary_loop_low_bits; [reflexivity|]. simpl. lia.
  - now replace (Z.to_nat num_bits) with O by lia.
Qed.

Lemma low_bits_length k : forall n, length (low_bits k n) = k.
Proof. induction k; intros; simpl; auto. Qed.

Lemma low_bits_bits k : forall n, Forall is_bit (low_bits k n).
Proof.
  induction k; intros; simpl; constructor; auto using land_1_bit.
Qed.

Lemma low_bits_value k : forall n,
  le_value (low_bits k n) = n mod 2 ^ Z.of_nat k.
Proof.
  induction k as [|k IH]; intros n.
  - simpl. now rewrite Z.mod_1_r.
  - cbn [low_bits le_value]. rewrite IH, land_1_mod, shiftr_1_div.
    rewrite Nat2Z.inj_succ, Z.pow_succ_r by lia.
    rewrite Z.rem_mul_r by lia. lia.
Qed.

Lemma low_bits_lookup k : forall n i,
  (i < k)%nat -> low_bits k n !! i = Some (Z.b2z (Z.testbit n (Z.of_nat i))).
Proof.
  induction k as [|k IH]; intros n i Hi; [lia|].
  destruct i as [|i]; cbn [low_bits].
  - change (Some (Z.land n 1) = Some (Z.b2z (Z.testbit n 0))).
    now rewrite land_1_mod, Z.bit0_mod.
  - change (low_bits k (Z.shiftr n 1) !! i =
            Some (Z.b2z (Z.testbit n (Z.of_nat (S i))))).
    rewrite IH by lia. rewrite Z.shiftr_spec by lia.
    do 3 f_equal. lia.
Qed.

Lemma lor_shiftl_bit x d : is_bit d -> Z.lor (Z.shiftl x 1) d = d + 2 * x.
Proof.
  intros Hd. rewrite Z.shiftl_mul_pow2 by lia. change (2 ^ 1) with 2.
  rewrite <- Z.add_nocarry_lor.
  - lia.
  - destruct Hd as [->| ->].
    + apply Z.land_0_r.
    + rewrite land_1_mod. apply Z.mod_mul. lia.
Qed.

Lemma from_binary_cons d l :
  from_binary (d :: l) = Z.lor (Z.shiftl (from_binary l) 1) d.
Proof. unfold from_binary. simpl. now rewrite fold_left_app. Qed.

Lemma from_binary_le_value l : Forall is_bit l -> from_binary l = le_value l.
Proof.
  induction 1 as [|d l Hd _ IH]; [reflexivity|].
  rewrite from_binary_cons, IH. simpl. now apply lor_shiftl_bit.
Qed.

Lemma le_value_bounds l :
  Forall is_bit l -> 0 <= le_value l < 2 ^ Z.of_nat (length l).
Proof.
  induction 1 as [|d l Hd _ IH].
  - simpl. lia.
  - cbn [le_value length]. rewrite Nat2Z.inj_succ, Z.pow_succ_r by lia.
    destruct Hd; lia.
Qed.

End CodecFacts.

(** ** How each store update shows through each reading *)

Module StoreFacts.

Import Sim.

Lemma wire_at_put_wire u x s w :
  wire_at (put_wire u x s) w = if decide (w = u) then x else wire_at s w.
Proof.
  unfold wire_at, put_wire; cbn [wires]. case_decide as Hw.
  - subst. now rewrite lookup_insert_eq.
  - now rewrite lookup_insert_ne by congruence.
Qed.

Lemma converter_at_put_converter u x s c :
  converter_at (put_converter u x s) c
  = if decide (c = u) then x else converter_at s c.
Proof.
  unfold converter_at, put_converter; cbn [converters]. case_decide as Hc.
  - subst. now rewrite lookup_insert_eq.
  - now rewrite lookup_insert_ne by congruence.
Qed.

(** *** wire values *)

Lemma value_of_write_value u v s w :
  value_of (write_value u v s) w
  = if decide (w = u) then Some v else value_of s w.
Proof.
  unfold value_of, write_value. rewrite wire_at_put_wire.
  now case_decide.
Qed.

Lemma value_of_push_observer u o s w :
  value_of (push_observer u o s) w = value_of s w.
Proof.
  unfold value_of, push_observer. rewrite wire_at_put_wire.
  case_decide; [now subst|reflexivity].
Qed.

Lemma value_of_alloc_wire s w :
  value_of (alloc_wire s) w
  = if decide (w = next_wire s) then None else value_of s w.
Proof.
  unfold value_of, wire_at, alloc_wire; cbn [wires]. case_decide as Hw.
  - subst. now rewrite lookup_insert_eq.
  - now rewrite lookup_insert_ne by congruence.
Qed.

Lemma value_of_alloc_converter outs s w :
  value_of (alloc_converter outs s) w = value_of s w.
Proof. reflexivity. Qed.
Lemma value_of_write_result c r s w :
  value_of (write_result c r s) w = value_of s w.
Proof. reflexivity. Qed.
Lemma value_of_write_sign c r s w :
  value_of (write_sign c r s) w = value_of s w.
Proof. reflexivity. Qed.
Lemma value_of_print n v s w : value_of (print n v s) w = value_of s w.
Proof. reflexivity. Qed.
Lemma value_of_record_call o s w : value_of (record_call o s) w = value_of s w.
Proof. reflexivity. Qed.

(** *** observer lists *)

Lemma observers_of_write_value u v s w :
  observers_of (write_value u v s) w = observers_of s w.
Proof.
  unfold observers_of, write_value. rewrite wire_at_put_wire.
  case_decide; [now subst|reflexivity].
Qed.

Lemma observers_of_push_observer u o s w :
  observers_of (push_observer u o s) w
  = if decide (w = u) then observers_of s w ++ [o] else observers_of s w.
Proof.
  unfold observers_of, push_observer. rewrite wire_at_put_wire.
  case_decide; [now subst|reflexivity].
Qed.

Lemma observers_of_alloc_wire s w :
  observers_of (alloc_wire s) w
  = if decide (w = next_wire s) then [] else observers_of s w.
Proof.
  unfold observers_of, wire_at, alloc_wire; cbn [wires]. case_decide as Hw.
  - subst. now rewrite lookup_insert_eq.
  - now rewrite lookup_insert_ne by congruence.
Qed.

Lemma observers_of_alloc_converter outs s w :
  observers_of (alloc_converter outs s) w = observers_of s w.
Proof. reflexivity. Qed.
Lemma observers_of_write_result c r s w :
  observers_of (write_result c r s) w = observers_of s w.
Proof. reflexivity. Qed.
Lemma observers_of_write_sign c r s w :
  observers_of (write_sign c r s) w = observers_of s w.
Proof. reflexivity. Qed.
Lemma observers_of_print n v s w :
  observers_of (print n v s) w = observers_of s w.
Proof. reflexivity. Qed.
Lemma observers_of_record_call o s w :
  observers_of (record_call o s) w = observers_of s w.
Proof. reflexivity. Qed.

(** *** converters *)

Lemma converter_at_write_value u v s c :
  converter_at (write_value u v s) c = converter_at s c.
Proof. reflexivity. Qed.
Lemma converter_at_push_observer u o s c :
  converter_at (push_observer u o s) c = converter_at s c.
Proof. reflexivity. Qed.
Lemma converter_at_alloc_wire s c :
  converter_at (alloc_wire s) c = converter_at s c.
Proof. reflexivity. Qed.
Lemma converter_at_print n v s c :
  converter_at (print n v s) c = converter_at s c.
Proof. reflexivity. Qed.
Lemma converter_at_record_call o s c :
  converter_at (record_call o s) c = converter_at s c.
Proof. reflexivity. Qed.

Lemma converter_at_alloc_converter outs s c :
  converter_at (alloc_converter outs s) c
  = if decide (c = next_converter s) then mkConverter outs None None
    else converter_at s c.
Proof.
  unfold converter_at, alloc_converter; cbn [converters]. case_decide as Hc.
  - subst. now rewrite lookup_insert_eq.
  - now rewrite lookup_insert_ne by congruence.
Qed.

Lemma converter_at_write_result u r s c :
  converter_at (write_result u r s) c
  = if decide (c = u)
    then mkConverter (c_outputs (converter_at s u)) (Some r)
                     (c_sign (converter_at s u))
    else converter_at s c.
Proof. unfold write_result. apply converter_at_put_converter. Qed.

Lemma converter_at_write_sign u sg s c :
  converter_at (write_sign u sg s) c
  = if decide (c = u)
    then mkConverter (c_outputs (converter_at s u))
                     (c_result (converter_at s u)) (Some sg)
    else converter_at s c.
Proof. unfold write_sign. apply converter_at_put_converter. Qed.

(** *** allocation counters *)

Lemma next_wire_write_value u v s : next_wire (write_value u v s) = next_wire s.
Proof. reflexivity. Qed.
Lemma next_wire_push_observer u o s :
  next_wire (push_observer u o s) = next_wire s.
Proof. reflexivity. Qed.
Lemma next_wire_alloc_wire s : next_wire (alloc_wire s) = S (next_wire s).
Proof. reflexivity. Qed.
Lemma next_wire_record_call o s : next_wire (record_call o s) = next_wire s.
Proof. reflexivity. Qed.
Lemma next_converter_write_value u v s :
  next_converter (write_value u v s) = next_converter s.
Proof. reflexivity. Qed.
Lemma next_converter_push_observer u o s :
  next_converter (push_observer u o s) = next_converter s.
Proof. reflexivity. Qed.
Lemma next_converter_alloc_wire s :
  next_converter (alloc_wire s) = next_converter s.
Proof. reflexivity. Qed.
Lemma next_converter_record_call o s :
  next_converter (record_call o s) = next_converter s.
Proof. reflexivity. Qed.

Lemma value_of_record_calls obs : forall s w,
  value_of (record_calls obs s) w = value_of s w.
Proof.
  induction obs as [|o obs IH]; intros; cbn; [reflexivity|].
  unfold record_calls in IH. now rewrite IH.
Qed.
Lemma observers_of_record_calls obs : forall s w,
  observers_of (record_calls obs s) w = observers_of s w.
Proof.
  induction obs as [|o obs IH]; intros; cbn; [reflexivity|].
  unfold record_calls in IH. now rewrite IH.
Qed.
Lemma converter_at_record_calls obs : forall s c,
  converter_at (record_calls obs s) c = converter_at s c.
Proof.
  induction obs as [|o obs IH]; intros; cbn; [reflexivity|].
  unfold record_calls in IH. now rewrite IH.
Qed.

(** *** the ghost history *)

Lemma calls_write_value u v s : calls (write_value u v s) = calls s.
Proof. reflexivity. Qed.
Lemma calls_record_call o s : calls (record_call o s) = calls s ++ [o].
Proof. reflexivity. Qed.
Lemma calls_print n v s : calls (print n v s) = calls s.
Proof. reflexivity. Qed.
Lemma calls_write_result c r s : calls (write_result c r s) = calls s.
Proof. reflexivity. Qed.
Lemma calls_write_sign c r s : calls (write_sign c r s) = calls s.
Proof. reflexivity. Qed.
Lemma stdout_write_value u v s : stdout (write_value u v s) = stdout s.
Proof. reflexivity. Qed.
Lemma stdout_record_call o s : stdout (record_call o s) = stdout s.
Proof. reflexivity. Qed.
Lemma stdout_print n v s : stdout (print n v s) = stdout s ++ [(n, v)].
Proof. reflexivity. Qed.

(** *** reading a list of wires *)

Lemma read_all_ext s s' ws :
  (forall w, value_of s' w = value_of s w) -> read_all s' ws = read_all s ws.
Proof.
  intros Hv. induction ws as [|w ws IH]; cbn [read_all]; [reflexivity|].
  now rewrite Hv, IH.
Qed.
Lemma read_all_record_call o s ws :
  read_all (record_call o s) ws = read_all s ws.
Proof. now apply read_all_ext. Qed.
Lemma read_all_print n v s ws : read_all (print n v s) ws = read_all s ws.
Proof. now apply read_all_ext. Qed.
Lemma read_all_write_result c r s ws :
  read_all (write_result c r s) ws = read_all s ws.
Proof. now apply read_all_ext. Qed.
Lemma read_all_write_sign c r s ws :
  read_all (write_sign c r s) ws = read_all s ws.
Proof. now apply read_all_ext. Qed.
Lemma read_all_alloc_converter outs s ws :
  read_all (alloc_converter outs s) ws = read_all s ws.
Proof. now apply read_all_ext. Qed.
Lemma read_all_push_observer u o s ws :
  read_all (push_observer u o s) ws = read_all s ws.
Proof. apply read_all_ext. intros. apply value_of_push_observer. Qed.

(** *** the same, one case at a time *)

Lemma value_of_write_value_eq u v s w :
  w = u -> value_of (write_value u v s) w = Some v.
Proof. intros. rewrite value_of_write_value. now rewrite decide_True. Qed.
Lemma value_of_write_value_ne u v s w :
  w <> u -> value_of (write_value u v s) w = value_of s w.
Proof. intros. rewrite value_of_write_value. now rewrite decide_False. Qed.
Lemma value_of_alloc_wire_eq s w :
  w = next_wire s -> value_of (alloc_wire s) w = None.
Proof. intros. rewrite value_of_alloc_wire. now rewrite decide_True. Qed.
Lemma value_of_alloc_wire_ne s w :
  w <> next_wire s -> value_of (alloc_wire s) w = value_of s w.
Proof. intros. rewrite value_of_alloc_wire. now rewrite decide_False. Qed.
Lemma observers_of_push_observer_eq u o s w :
  w = u -> observers_of (push_observer u o s) w = observers_of s w ++ [o].
Proof. intros. rewrite observers_of_push_observer. now rewrite decide_True. Qed.
Lemma observers_of_push_observer_ne u o s w :
  w <> u -> observers_of (push_observer u o s) w = observers_of s w.
Proof. intros. rewrite observers_of_push_observer. now rewrite decide_False. Qed.
Lemma observers_of_alloc_wire_eq s w :
  w = next_wire s -> observers_of (alloc_wire s) w = [].
Proof. intros. rewrite observers_of_alloc_wire. now rewrite decide_True. Qed.
Lemma observers_of_alloc_wire_ne s w :
  w <> next_wire s -> observers_of (alloc_wire s) w = observers_of s w.
Proof. intros. rewrite observers_of_alloc_wire. now rewrite decide_False. Qed.

Lemma c_outputs_write_result u r s c :
  c_outputs (converter_at (write_result u r s) c) = c_outputs (converter_at s c).
Proof. rewrite converter_at_write_result. case_decide; now subst. Qed.
Lemma c_outputs_write_sign u r s c :
  c_outputs (converter_at (write_sign u r s) c) = c_outputs (converter_at s c).
Proof. rewrite converter_at_write_sign. case_decide; now subst. Qed.
Lemma c_result_write_result u r s :
  c_result (converter_at (write_result u r s) u) = Some r.
Proof. rewrite converter_at_write_result. now rewrite decide_True. Qed.
Lemma c_result_write_sign u r s c :
  c_result (converter_at (write_sign u r s) c) = c_result (converter_at s c).
Proof. rewrite converter_at_write_sign. case_decide; now subst. Qed.
Lemma c_sign_write_sign u r s :
  c_sign (converter_at (write_sign u r s) u) = Some r.
Proof. rewrite converter_at_write_sign. now rewrite decide_True. Qed.
Lemma c_sign_write_result u r s c :
  c_sign (converter_at (write_result u r s) c) = c_sign (converter_at s c).
Proof. rewrite converter_at_write_result. case_decide; now subst. Qed.

End StoreFacts.

Create Rewrite HintDb store.

#[global] Hint Rewrite
  StoreFacts.value_of_push_observer StoreFacts.value_of_alloc_converter
  StoreFacts.value_of_write_result StoreFacts.value_of_write_sign
  StoreFacts.value_of_print StoreFacts.value_of_record_call
  StoreFacts.observers_of_write_value
  StoreFacts.observers_of_alloc_converter
  StoreFacts.observers_of_write_result StoreFacts.observers_of_write_sign
  StoreFacts.observers_of_print StoreFacts.observers_of_record_call
  StoreFacts.converter_at_write_value StoreFacts.converter_at_push_observer
  StoreFacts.converter_at_alloc_wire StoreFacts.converter_at_print
  StoreFacts.converter_at_record_call
  StoreFacts.c_outputs_write_result StoreFacts.c_outputs_write_sign
  StoreFacts.c_result_write_result StoreFacts.c_result_write_sign
  StoreFacts.c_sign_write_sign StoreFacts.c_sign_write_result
  StoreFacts.next_wire_write_value StoreFacts.next_wire_push_observer
  StoreFacts.next_wire_alloc_wire StoreFacts.next_wire_record_call
  StoreFacts.next_converter_write_value StoreFacts.next_converter_push_observer
  StoreFacts.next_converter_alloc_wire StoreFacts.next_converter_record_call
  StoreFacts.calls_write_value StoreFacts.calls_record_call
  StoreFacts.calls_print StoreFacts.calls_write_result
  StoreFacts.calls_write_sign StoreFacts.stdout_write_value
  StoreFacts.stdout_record_call StoreFacts.stdout_print
  StoreFacts.read_all_record_call StoreFacts.read_all_print
  StoreFacts.read_all_write_result StoreFacts.read_all_write_sign
  StoreFacts.read_all_alloc_converter StoreFacts.read_all_push_observer
  StoreFacts.value_of_record_calls StoreFacts.observers_of_record_calls
  StoreFacts.converter_at_record_calls
  : store.

(** Push the readings of a store through the updates applied to it, one
    layer at a time; [side] proves the comparisons of wire identifiers. *)
Ltac store_simpl_by side :=
  repeat first
    [ progress autorewrite with store
    | rewrite StoreFacts.value_of_write_value_ne by side
    | rewrite StoreFacts.value_of_write_value_eq by side
    | rewrite StoreFacts.value_of_alloc_wire_ne by side
    | rewrite StoreFacts.value_of_alloc_wire_eq by side
    | rewrite StoreFacts.observers_of_push_observer_ne by side
    | rewrite StoreFacts.observers_of_push_observer_eq by side
    | rewrite StoreFacts.observers_of_alloc_wire_ne by side
    | rewrite StoreFacts.observers_of_alloc_wire_eq by side ].

Ltac store_simpl := store_simpl_by lia.
(** ** Equations for running the methods on a store *)

Module ExecFacts.

Import Sim Codec.

Lemma in_0_1_true v : in_0_1 v = true <-> is_bit v.
Proof. unfold in_0_1, is_bit. lia. Qed.

Lemma in_0_1_false v : in_0_1 v = false <-> ~ is_bit v.
Proof. unfold in_0_1, is_bit. lia. Qed.

Lemma operation_bit op x y : is_bit x -> is_bit y -> is_bit (operation op x y).
Proof.
  intros [->| ->] [->| ->]; destruct op; cbn; unfold is_bit; auto.
Qed.

Lemma Wire_set_bit fuel w v s :
  is_bit v ->
  Wire_set (S fuel) w v s
  = Observable_notify_observers (Wire_set fuel) (observers_of s w)
      (write_value w v s).
Proof.
  intros Hv. apply in_0_1_true in Hv. cbn [Wire_set]. rewrite Hv.
  unfold bind, modify, gets.
  now rewrite StoreFacts.observers_of_write_value.
Qed.

Lemma Wire_set_not_bit fuel w v s :
  ~ is_bit v -> Wire_set (S fuel) w v s = (s, Raise AssertionError).
Proof.
  intros Hv. apply in_0_1_false in Hv. cbn [Wire_set]. now rewrite Hv.
Qed.

Lemma notify_nil set s :
  Observable_notify_observers set [] s = (s, Done tt).
Proof. reflexivity. Qed.

Lemma notify_cons set o obs s :
  Observable_notify_observers set (o :: obs) s
  = match update set o (record_call o s) with
    | (s', Done _) => Observable_notify_observers set obs s'
    | (s', Raise e) => (s', Raise e)
    | (s', OutOfFuel) => (s', OutOfFuel)
    end.
Proof. reflexivity. Qed.

Lemma gate_update_eq set op i1 i2 out s :
  DoubleInputGate_update set op i1 i2 out s
  = match value_of s i1, value_of s i2 with
    | Some x, Some y => set out (operation op x y) s
    | _, _ => (s, Done tt)
    end.
Proof.
  unfold DoubleInputGate_update, bind, Wire_is_set, Wire_get_value, gets, ret.
  destruct (value_of s i1) as [x|] eqn:H1; cbn; [|reflexivity].
  destruct (value_of s i2) as [y|] eqn:H2; cbn; [|reflexivity].
  now rewrite H1, H2.
Qed.

(** Notifying gates that are still waiting for an input changes nothing
    but the ghost history, whatever [set] is. *)
Lemma notify_idle set obs : forall s,
  Forall (idle_in s) obs ->
  Observable_notify_observers set obs s = (record_calls obs s, Done tt).
Proof.
  induction obs as [|o obs IH]; intros s Hidle; [reflexivity|].
  apply Forall_cons in Hidle as [Ho Hidle].
  rewrite notify_cons. destruct o as [op i1 i2 out| |]; try contradiction.
  cbn [update]. rewrite gate_update_eq.
  rewrite !StoreFacts.value_of_record_call.
  assert (forall A (k : Z -> Z -> A) (d : A),
            match value_of s i1, value_of s i2 with
            | Some x, Some y => k x y
            | _, _ => d
            end = d) as Hskip.
  { intros A k d. destruct Ho as [-> | ->]; [reflexivity|].
    now destruct (value_of s i1). }
  rewrite Hskip. cbn [record_calls fold_left]. apply IH.
  eapply Forall_impl; [exact Hidle|].
  intros [] Hx; cbn in *; auto.
Qed.

Lemma display_update_eq name w s :
  Display_update name w s
  = match value_of s w with
    | Some v => (print name v s, Done tt)
    | None => (s, Raise AttributeError)
    end.
Proof.
  unfold Display_update, bind, Wire_get_value, modify.
  now destruct (value_of s w).
Qed.

Lemma list_comp_is_set ws s :
  list_comp Wire_is_set ws s
  = (s, Done (map (fun w => bool_decide (is_Some (value_of s w))) ws)).
Proof.
  induction ws as [|w ws IH]; [reflexivity|].
  cbn [list_comp]. unfold bind at 1. cbn. unfold bind at 1.
  now rewrite IH.
Qed.

Lemma read_all_flags s ws :
  forallb id (map (fun w => bool_decide (is_Some (value_of s w))) ws)
  = bool_decide (is_Some (read_all s ws)).
Proof.
  induction ws as [|w ws IH]; [reflexivity|].
  cbn [map forallb read_all]. rewrite IH.
  destruct (value_of s w) as [v|]; cbn; [|reflexivity].
  destruct (read_all s ws); reflexivity.
Qed.

Lemma list_comp_get_value ws s :
  list_comp Wire_get_value ws s
  = match read_all s ws with
    | Some vs => (s, Done vs)
    | None => (s, Raise AttributeError)
    end.
Proof.
  induction ws as [|w ws IH]; [reflexivity|].
  cbn [list_comp read_all]. unfold bind at 1. unfold Wire_get_value at 1.
  destruct (value_of s w) as [v|]; [|reflexivity].
  unfold bind at 1. rewrite IH.
  now destruct (read_all s ws).
Qed.

Lemma converter_update_eq c s :
  Converter_update c s
  = match read_all s (c_outputs (converter_at s c)) with
    | Some bl =>
        match last bl with
        | Some sg =>
            (write_sign c sg (write_result c (from_binary bl) s), Done tt)
        | None => (write_result c (from_binary bl) s, Raise IndexError)
        end
    | None => (s, Done tt)
    end.
Proof.
  unfold Converter_update. unfold bind at 1. cbn [gets].
  unfold bind at 1. rewrite list_comp_is_set, read_all_flags.
  destruct (read_all s (c_outputs (converter_at s c))) as [bl|] eqn:Hall;
    cbn [bool_decide]; [|reflexivity].
  rewrite bool_decide_eq_true_2 by eauto.
  unfold bind at 1. rewrite list_comp_get_value, Hall.
  unfold bind, modify. now destruct (last bl).
Qed.

Lemma read_all_frame s s' ws :
  (forall w, value_of s' w = value_of s w) -> read_all s ws = read_all s' ws.
Proof.
  intros Hv. induction ws as [|w ws IH]; cbn [read_all]; [reflexivity|].
  now rewrite Hv, IH.
Qed.

Lemma read_all_length s ws vs : read_all s ws = Some vs -> length vs = length ws.
Proof.
  revert vs; induction ws as [|w ws IH]; intros vs; cbn.
  - now intros [= <-].
  - destruct (value_of s w); [|discriminate].
    destruct (read_all s ws); [|discriminate].
    intros [= <-]. cbn. f_equal. now apply IH.
Qed.

End ExecFacts.
(** ** [build_circuit] wires the stages as laid out *)

Module BuildFacts.

Import Sim Circuit.

Local Open Scope nat_scope.

Ltac decide_arith :=
  repeat match goal with
  | |- context [decide (?a = ?c)] =>
      first [ rewrite (decide_True (P := a = c)) by lia
            | rewrite (decide_False (P := a = c)) by lia ]
  end.

Lemma index_snoc {A} (f : nat -> A) i v s :
  index (map f (seq 0 i) ++ [v]) i s = (s, Done v).
Proof.
  unfold index. rewrite lookup_app_r; rewrite length_map, length_seq; [|lia].
  now rewrite Nat.sub_diag.
Qed.

Lemma map_seq_snoc {A} (f : nat -> A) i :
  map f (seq 0 i) ++ [f i] = map f (seq 0 (S i)).
Proof. now rewrite seq_S, map_app. Qed.

Lemma build_circuit_body_spec b i x y s :
  next_wire s = b + 7 * i + 1 ->
  Wired b i [] s ->
  Driven b i 0 x y s ->
  exists s',
    build_circuit_body
      (map (in1 b) (seq 0 i), map (in2 b) (seq 0 i), map (out b) (seq 0 i),
       carry b i) i s
    = (s', Done (map (in1 b) (seq 0 (S i)), map (in2 b) (seq 0 (S i)),
                 map (out b) (seq 0 (S i)), carry b (S i)))
    /\ next_wire s' = b + 7 * S i + 1
    /\ next_converter s' = next_converter s
    /\ Wired b (S i) [] s'
    /\ Driven b (S i) 0 x y s'.
Proof.
  intros Hnext HW HD.
  unfold build_circuit_body.
  unfold bind at 1. unfold Wire_new at 1.
  unfold bind at 1. unfold Wire_new at 1.
  unfold bind at 1. unfold Wire_new at 1.
  unfold bind at 1. unfold Wire_new at 1.
  unfold bind at 1. rewrite index_snoc.
  unfold bind at 1. rewrite index_snoc.
  unfold bind at 1. rewrite index_snoc.
  cbn [bind FullAdder_init HalfAdder_init DoubleInputGate_init Wire_new
       Observable_add_observer modify ret].
  autorewrite with store. rewrite Hnext. unfold ret.
  eexists. split.
  - apply (f_equal2 pair); [reflexivity|]. f_equal.
    rewrite <- !map_seq_snoc. unfold in1, in2, out, carry.
    repeat f_equal; lia.
  - autorewrite with store. rewrite !Hnext.
    split; [lia|]. split; [reflexivity|]. 
    destruct HW as [Oin1 Oin2 Ocarry Ow1 Ow3 Ow2 Oout Olast].
    destruct HD as [Vcarry Vout Iin1 Iin2 Iout Iw1 Iw2 Iw3 Icarry].
    unfold in1, in2, out, w1, w2, w3, carry in *.
    split; constructor; try intros j Hj.
    all: unfold in1, in2, out, w1, w2, w3, carry.
    all: try (destruct (decide (j = i)) as [->|]).
    all: store_simpl_by ltac:(autorewrite with store; rewrite ?Hnext; lia);
         rewrite ?Olast; cbn [app]; auto.
    all: try solve [repeat f_equal; lia].
    all: try solve [first [ rewrite Oin1 | rewrite Oin2 | rewrite Ocarry
                          | rewrite Ow1 | rewrite Ow3 | rewrite Ow2
                          | rewrite Oout | apply Iin1 | apply Iin2
                          | apply Iout | apply Iw1 | apply Iw2 | apply Iw3
                          | apply Icarry ];
                    first [repeat f_equal; lia | lia]].
Qed.

Lemma build_circuit_loop b x y m : forall i s,
  next_wire s = b + 7 * i + 1 ->
  Wired b i [] s ->
  Driven b i 0 x y s ->
  exists s',
    foldM build_circuit_body
      (map (in1 b) (seq 0 i), map (in2 b) (seq 0 i), map (out b) (seq 0 i),
       carry b i) (seq i m) s
    = (s', Done (map (in1 b) (seq 0 (i + m)), map (in2 b) (seq 0 (i + m)),
                 map (out b) (seq 0 (i + m)), carry b (i + m)))
    /\ next_converter s' = next_converter s
    /\ Wired b (i + m) [] s'
    /\ Driven b (i + m) 0 x y s'.
Proof.
  induction m as [|m IH]; intros i s Hnext HW HD.
  - rewrite Nat.add_0_r. exists s. cbn.
    split; [reflexivity|]. split; [reflexivity|]. split; assumption.
  - cbn [seq foldM]. unfold bind.
    destruct (build_circuit_body_spec b i x y s Hnext HW HD)
      as (s1 & -> & Hnext1 & Hc1 & HW1 & HD1).
    destruct (IH (S i) s1 Hnext1 HW1 HD1) as (s' & -> & Hc' & HW' & HD').
    exists s'. replace (i + S m) with (S i + m) by lia.
    split; [reflexivity|]. split; [congruence|]. split; assumption.
Qed.

(** [build_circuit], started in any store, returns the wires of the layout
    based at that store's next free identifier, wired and idle. *)
Lemma build_circuit_spec fuel n x y s :
  exists s',
    build_circuit (S fuel) n s
    = (s', Done (map (in1 (next_wire s)) (seq 0 (Z.to_nat n)),
                 map (in2 (next_wire s)) (seq 0 (Z.to_nat n)),
                 map (out (next_wire s)) (seq 0 (Z.to_nat n))))
    /\ next_converter s' = next_converter s
    /\ Wired (next_wire s) (Z.to_nat n) [] s'
    /\ Driven (next_wire s) (Z.to_nat n) 0 x y s'.
Proof.
  unfold build_circuit. unfold bind at 1. unfold Wire_new at 1.
  unfold bind at 1. rewrite ExecFacts.Wire_set_bit by (now left).
  store_simpl. rewrite ExecFacts.notify_nil.
  set (b := next_wire s).
  set (s0 := write_value b 0 (alloc_wire s)).
  destruct (build_circuit_loop b x y (Z.to_nat n) 0 s0)
    as (s' & Hrun & Hc & HW & HD).
  - subst s0. autorewrite with store. subst b. lia.
  - subst s0. constructor; intros; try lia.
    unfold carry. now store_simpl.
  - subst s0. constructor; intros; try lia.
    unfold carry. now store_simpl.
  - replace (carry b 0) with b in Hrun by (unfold carry; lia).
    cbn [seq map] in Hrun.
    unfold bind at 1. rewrite Hrun. cbn [Nat.add] in *.
    exists s'. split; [reflexivity|]. split; [|split; assumption].
    rewrite Hc. subst s0. now autorewrite with store.
Qed.

(** Registering one observer on each wire of a list. *)
Lemma add_observers_spec o (l : list nat) : forall s,
  NoDup l ->
  exists s',
    forM_ l (fun w => Observable_add_observer w o) s = (s', Done tt)
    /\ (forall w, value_of s' w = value_of s w)
    /\ (forall c, converter_at s' c = converter_at s c)
    /\ (forall w, observers_of s' w
                  = if decide (w ∈ l) then observers_of s w ++ [o]
                    else observers_of s w).
Proof.
  induction l as [|u l IH]; intros s Hnd.
  - exists s. split; [reflexivity|]. split; [reflexivity|].
    split; [reflexivity|]. intros w.
    now rewrite decide_False by apply not_elem_of_nil.
  - apply NoDup_cons in Hnd as [Hu Hnd]. cbn [forM_]. unfold bind.
    cbn [Observable_add_observer modify].
    destruct (IH (push_observer u o s) Hnd) as (s' & -> & Hv & Hc & Ho).
    exists s'. split; [reflexivity|].
    split; [|split].
    + intros w. rewrite Hv. now autorewrite with store.
    + intros c. rewrite Hc. now autorewrite with store.
    + intros w. rewrite Ho.
      destruct (decide (w = u)) as [->|Hne].
      * rewrite StoreFacts.observers_of_push_observer_eq by reflexivity.
        rewrite decide_False by assumption.
        rewrite decide_True; [reflexivity|]. apply elem_of_cons. now left.
      * rewrite StoreFacts.observers_of_push_observer_ne by assumption.
        destruct (decide (w ∈ l)) as [Hin|Hnin].
        -- rewrite decide_True; [reflexivity|]. apply elem_of_cons. now right.
        -- rewrite decide_False; [reflexivity|].
           rewrite elem_of_cons. tauto.
Qed.

Lemma NoDup_map_seq (g : nat -> nat) :
  (forall i j, g i = g j -> i = j) ->
  forall n j, NoDup (map g (seq j n)).
Proof.
  intros Hinj. induction n as [|n IH]; intros j; cbn [seq map].
  - constructor.
  - apply NoDup_cons. split; [|apply IH].
    rewrite list_elem_of_In, in_map_iff. intros (i & Heq & Hin).
    apply in_seq in Hin. apply Hinj in Heq. lia.
Qed.

Lemma NoDup_outs_from b n : forall j, NoDup (map (out b) (seq j n)).
Proof.
  induction n as [|n IH]; intros j; cbn [seq map].
  - constructor.
  - apply NoDup_cons. split; [|apply IH].
    rewrite list_elem_of_In, in_map_iff. intros (i & Heq & Hin).
    apply in_seq in Hin. unfold out in Heq. lia.
Qed.

Lemma NoDup_outs b n : NoDup (map (out b) (seq 0 n)).
Proof. apply NoDup_outs_from. Qed.

Lemma Converter_init_spec b n x y s :
  Wired b n [] s ->
  Driven b n 0 x y s ->
  exists s',
    Converter_init (map (out b) (seq 0 n)) s = (s', Done (next_converter s))
    /\ Wired b n [ConverterRef (next_converter s)] s'
    /\ Driven b n 0 x y s'
    /\ converter_at s' (next_converter s)
       = mkConverter (map (out b) (seq 0 n)) None None.
Proof.
  intros HW HD. unfold Converter_init. unfold bind at 1.
  set (c := next_converter s).
  destruct (add_observers_spec (ConverterRef c) (map (out b) (seq 0 n))
              (alloc_converter (map (out b) (seq 0 n)) s) (NoDup_outs b n))
    as (s' & Hrun & Hv & Hc & Ho).
  unfold bind at 1. rewrite Hrun. exists s'. split; [reflexivity|].
  assert (forall w : nat, (forall j, w <> out b j) ->
            observers_of s' w = observers_of s w) as Hother.
  { intros w Hw. rewrite Ho. rewrite decide_False; [reflexivity|].
    rewrite list_elem_of_In, in_map_iff. intros (j & Hj & _).
    now apply (Hw j). }
  destruct HW as [Oin1 Oin2 Ocarry Ow1 Ow3 Ow2 Oout Olast].
  destruct HD as [Vcarry Vout Iin1 Iin2 Iout Iw1 Iw2 Iw3 Icarry].
  split; [|split].
  - constructor; try intros i Hi.
    all: try (rewrite Hother
                by (intros j; unfold in1, in2, out, w1, w2, w3, carry; lia);
              auto).
    rewrite Ho. rewrite decide_True.
    + autorewrite with store. now rewrite Oout.
    + rewrite list_elem_of_In, in_map_iff. exists i. split; [reflexivity|].
      apply in_seq. lia.
  - constructor; try intros i Hi; rewrite Hv; autorewrite with store; auto.
  - rewrite Hc. rewrite StoreFacts.converter_at_alloc_converter. subst c.
    now rewrite decide_True by reflexivity.
Qed.

End BuildFacts.
(** ** Driving one stage of the circuit *)

Module DriveFacts.

Import Sim Codec Circuit.
Import BuildFacts.

Local Open Scope nat_scope.

Lemma read_all_some b (f : nat -> Z) s l : forall j,
  (forall i, j <= i < j + l -> value_of s (out b i) = Some (f i)) ->
  read_all s (map (out b) (seq j l)) = Some (map f (seq j l)).
Proof.
  induction l as [|l IH]; intros j Hv; [reflexivity|].
  cbn [seq map read_all]. rewrite Hv by lia.
  rewrite IH; [reflexivity|]. intros i Hi. apply Hv. lia.
Qed.

Lemma read_all_none b s l : forall j i,
  j <= i < j + l -> value_of s (out b i) = None ->
  read_all s (map (out b) (seq j l)) = None.
Proof.
  induction l as [|l IH]; intros j i Hi Hv; [lia|].
  cbn [seq map read_all].
  destruct (decide (i = j)) as [->|Hne].
  - now rewrite Hv.
  - rewrite (IH (S j) i) by (auto; lia).
    now destruct (value_of s (out b j)).
Qed.

Lemma last_map_seq (f : nat -> Z) n :
  0 < n -> last (map f (seq 0 n)) = Some (f (n - 1)).
Proof.
  destruct n as [|n]; [lia|]. intros _.
  rewrite seq_S, map_app. cbn [map Nat.add]. rewrite last_snoc.
  do 2 f_equal. lia.
Qed.

(** What [Converter.update] does while the first [m] of the [n] output
    wires are set. *)
Lemma converter_update_outs b (f : nat -> Z) n m c s :
  0 < m <= n ->
  c_outputs (converter_at s c) = map (out b) (seq 0 n) ->
  (forall i, i < m -> value_of s (out b i) = Some (f i)) ->
  (forall i, m <= i < n -> value_of s (out b i) = None) ->
  Converter_update c s
  = (if decide (m = n)
     then write_sign c (f (n - 1))
            (write_result c (from_binary (map f (seq 0 n))) s)
     else s, Done tt).
Proof.
  intros Hm Houts Hset Hidle. rewrite ExecFacts.converter_update_eq, Houts.
  destruct (decide (m = n)) as [->|Hne].
  - rewrite (read_all_some b f) by (intros; apply Hset; lia).
    now rewrite last_map_seq by lia.
  - now rewrite (read_all_none b s n 0 m) by (try apply Hidle; lia).
Qed.

(** The same, keeping only what the rest of a cascade needs to know. *)
Lemma converter_update_frame b (f : nat -> Z) n m c s :
  0 < m <= n ->
  c_outputs (converter_at s c) = map (out b) (seq 0 n) ->
  (forall i, i < m -> value_of s (out b i) = Some (f i)) ->
  (forall i, m <= i < n -> value_of s (out b i) = None) ->
  exists s2,
    Converter_update c s = (s2, Done tt)
    /\ (forall w, value_of s2 w = value_of s w)
    /\ (forall w, observers_of s2 w = observers_of s w)
    /\ c_outputs (converter_at s2 c) = map (out b) (seq 0 n)
    /\ (m = n ->
        c_result (converter_at s2 c) = Some (from_binary (map f (seq 0 n)))
        /\ c_sign (converter_at s2 c) = Some (f (n - 1))).
Proof.
  intros Hm Houts Hset Hidle.
  rewrite (converter_update_outs b f n m) by assumption.
  destruct (decide (m = n)) as [->|Hne].
  - eexists. split; [reflexivity|].
    repeat split; intros; now autorewrite with store.
  - exists s. repeat split; auto; intros; lia.
Qed.

Lemma carry_at_bit x y :
  (forall i, is_bit (x i)) -> (forall i, is_bit (y i)) ->
  forall k, is_bit (carry_at x y k).
Proof.
  intros Hx Hy. induction k as [|k IH]; cbn [carry_at].
  - now left.
  - unfold full_adder_carry. auto using ExecFacts.operation_bit.
Qed.

Ltac sim :=
  repeat first
    [ rewrite ExecFacts.notify_nil
    | rewrite ExecFacts.notify_cons
    | progress cbn [update]
    | rewrite ExecFacts.gate_update_eq
    | progress store_simpl ].

Lemma drive_stage b n c x y k f s :
  k < n ->
  (forall i, is_bit (x i)) -> (forall i, is_bit (y i)) ->
  Wired b n [ConverterRef c] s ->
  Driven b n k x y s ->
  c_outputs (converter_at s c) = map (out b) (seq 0 n) ->
  exists s',
    (Wire_set (S (S (S f))) (in1 b k) (x k) ;;;
     Wire_set (S (S (S f))) (in2 b k) (y k)) s = (s', Done tt)
    /\ Wired b n [ConverterRef c] s'
    /\ Driven b n (S k) x y s'
    /\ c_outputs (converter_at s' c) = map (out b) (seq 0 n)
    /\ (S k = n ->
        c_result (converter_at s' c)
          = Some (from_binary (map (sum_at x y) (seq 0 n)))
        /\ c_sign (converter_at s' c) = Some (sum_at x y k)).
Proof.
  intros Hk Hx Hy HW HD Houts.
  pose proof (carry_at_bit x y Hx Hy k) as Hc.
  destruct HW as [Oin1 Oin2 Ocarry Ow1 Ow3 Ow2 Oout Olast].
  destruct HD as [Vcarry Vout Iin1 Iin2 Iout Iw1 Iw2 Iw3 Icarry].
  unfold in1, in2, out, w1, w2, w3, carry in *.
  unfold bind at 1.
  assert (forall i, S k <= i < n ->
            value_of s (b + 7 * i + 5) = None) as Iw1' by (intros; apply Iw1; lia).
  - (* input1.set(dig1): both gates on it still wait for input2 *)
    rewrite ExecFacts.Wire_set_bit by auto.
    rewrite Oin1 by lia. sim.
    rewrite Iin2 by lia. sim.
    rewrite Iin2 by lia. sim.
    (* input2.set(dig2): the first XOR gate fires and sets wire1 *)
    rewrite ExecFacts.Wire_set_bit by auto. sim.
    rewrite Oin2 by lia. sim.
    rewrite ExecFacts.Wire_set_bit by auto using ExecFacts.operation_bit.
    sim. rewrite Ow1 by lia. sim.
    (* the second XOR gate sets the output wire; the converter looks *)
    rewrite Vcarry. sim.
    rewrite ExecFacts.Wire_set_bit by auto using ExecFacts.operation_bit.
    sim. rewrite Oout by lia. sim.
    match goal with
    | |- context [Converter_update c ?st] =>
        destruct (converter_update_frame b (sum_at x y) n (S k) c st)
          as (s2 & -> & Hv2 & Ho2 & Houts2 & Hres2)
    end.
    { lia. }
    { now autorewrite with store. }
    { intros i Hi. unfold out. destruct (decide (i = k)) as [->|];
        store_simpl; [reflexivity|]. apply Vout. lia. }
    { intros i Hi. unfold out. store_simpl. apply Iout. lia. }
    repeat first [progress sim | rewrite Hv2 | rewrite Ho2].
    rewrite Vcarry. sim.
    (* the second AND gate sets wire3; the OR gate still waits for wire2 *)
    rewrite ExecFacts.Wire_set_bit by auto using ExecFacts.operation_bit.
    repeat first [progress sim | rewrite Hv2 | rewrite Ho2].
    rewrite Ow3 by lia.
    repeat first [progress sim | rewrite Hv2 | rewrite Ho2].
    rewrite Iw2 by lia. sim.
    (* the first AND gate sets wire2, the OR gate fires and sets the carry *)
    repeat first [progress sim | rewrite Hv2 | rewrite Ho2].
    rewrite ExecFacts.Wire_set_bit by auto using ExecFacts.operation_bit.
    repeat first [progress sim | rewrite Hv2 | rewrite Ho2].
    rewrite Ow2 by lia.
    repeat first [progress sim | rewrite Hv2 | rewrite Ho2].
    rewrite ExecFacts.Wire_set_bit by auto using ExecFacts.operation_bit.
    repeat first [progress sim | rewrite Hv2 | rewrite Ho2].
    (* the gates of the next stage, if any, wait for its wire1 *)
    rewrite ExecFacts.notify_idle.
    + sim. eexists. split; [reflexivity|].
      split; [|split; [|split]].
      * constructor; try intros i Hi;
          unfold in1, in2, out, w1, w2, w3, carry;
          repeat first [progress store_simpl | rewrite Hv2 | rewrite Ho2];
          auto.
      * constructor; try intros i Hi;
          unfold in1, in2, out, w1, w2, w3, carry;
          try (destruct (decide (i = k)) as [->|]);
          repeat first [progress store_simpl | rewrite Hv2 | rewrite Ho2];
          auto with lia.
      * autorewrite with store. exact Houts2.
      * intros Hlast. autorewrite with store.
        destruct (Hres2 Hlast) as [-> ->].
        split; [reflexivity|]. do 2 f_equal. lia.
    + destruct (decide (S k = n)) as [Hlast|Hmore].
      * replace (b + (7 * S k - 3)) with (b + (7 * n - 3)) by (subst n; lia).
        rewrite Olast. constructor.
      * rewrite Ocarry by lia.
        constructor; [|constructor; [|constructor]]; cbn [idle_in]; right;
          repeat first [progress store_simpl | rewrite Hv2 | rewrite Ho2];
          apply Iw1; lia.
Qed.

End DriveFacts.
(** ** Arithmetic of the ripple-carry chain *)

Module AdderArith.

Import Sim Codec Circuit.

Lemma full_adder_correct x y c :
  is_bit x -> is_bit y -> is_bit c ->
  full_adder_sum x y c + 2 * full_adder_carry x y c = x + y + c.
Proof. intros [->| ->] [->| ->] [->| ->]; reflexivity. Qed.

Lemma full_adder_sum_bit x y c :
  is_bit x -> is_bit y -> is_bit c -> is_bit (full_adder_sum x y c).
Proof. unfold full_adder_sum. auto using ExecFacts.operation_bit. Qed.

Lemma digit_bit a i : is_bit (digit a i).
Proof. unfold digit, is_bit. destruct (Z.testbit a (Z.of_nat i)); auto. Qed.

Lemma low_bits_digits k : forall a,
  low_bits k a = map (digit a) (seq 0 k).
Proof.
  intros a. apply list_eq. intros i.
  destruct (decide (i < k)%nat) as [Hi|Hi].
  - rewrite CodecFacts.low_bits_lookup by assumption.
    change (map (digit a) (seq 0 k)) with (digit a <$> seq 0 k).
    rewrite list_lookup_fmap, lookup_seq_lt by assumption. reflexivity.
  - rewrite !lookup_ge_None_2; [reflexivity| |].
    + rewrite length_map, length_seq. lia.
    + rewrite CodecFacts.low_bits_length. lia.
Qed.

Lemma le_value_snoc l d :
  le_value (l ++ [d]) = le_value l + 2 ^ Z.of_nat (length l) * d.
Proof.
  induction l as [|e l IH]; cbn [app le_value length].
  - cbn. lia.
  - rewrite IH, Nat2Z.inj_succ, Z.pow_succ_r by lia. lia.
Qed.

Section Chain.

Variables x y : nat -> Z.
Hypothesis Hx : forall i, is_bit (x i).
Hypothesis Hy : forall i, is_bit (y i).

Lemma sum_at_bit k : is_bit (sum_at x y k).
Proof.
  apply full_adder_sum_bit; auto. now apply DriveFacts.carry_at_bit.
Qed.

Lemma sums_bits n : Forall is_bit (map (sum_at x y) (seq 0 n)).
Proof.
  apply Forall_forall. intros d Hd.
  apply list_elem_of_In, in_map_iff in Hd as (i & <- & _). apply sum_at_bit.
Qed.

(** The sum bits and the final carry add up to the sum of the operands. *)
Lemma ripple_value n :
  le_value (map (sum_at x y) (seq 0 n)) + 2 ^ Z.of_nat n * carry_at x y n
  = le_value (map x (seq 0 n)) + le_value (map y (seq 0 n)).
Proof.
  induction n as [|n IH]; [reflexivity|].
  rewrite seq_S, !map_app. cbn [Nat.add map].
  rewrite !le_value_snoc, !length_map, !length_seq.
  cbn [carry_at]. rewrite Nat2Z.inj_succ, Z.pow_succ_r by lia.
  pose proof (full_adder_correct (x n) (y n) (carry_at x y n) (Hx n) (Hy n)
                (DriveFacts.carry_at_bit x y Hx Hy n)) as Hfa.
  change (sum_at x y n) with (full_adder_sum (x n) (y n) (carry_at x y n)).
  nia.
Qed.

End Chain.

End AdderArith.
(** ** The whole of [add] *)

Module AddFacts.

Import Sim Codec Circuit.

Local Open Scope nat_scope.

Lemma zip4_map {A B C D} (f1 : nat -> A) (f2 : nat -> B) (f3 : nat -> C)
    (f4 : nat -> D) (l : list nat) :
  zip4 (map f1 l) (map f2 l) (map f3 l) (map f4 l)
  = map (fun i => (f1 i, f2 i, f3 i, f4 i)) l.
Proof. induction l as [|i l IH]; cbn; [reflexivity|]. now rewrite IH. Qed.

Section Drive.

Variables (b n c : nat) (x y : nat -> Z) (f : nat).
Hypothesis Hx : forall i, is_bit (x i).
Hypothesis Hy : forall i, is_bit (y i).

Let body := fun p : nat * nat * Z * Z =>
  let '(input1, input2, dig1, dig2) := p in
  Wire_set (S (S (S f))) input1 dig1 ;;; Wire_set (S (S (S f))) input2 dig2.

Lemma drive_loop m : forall k s,
  k + m = n ->
  Wired b n [ConverterRef c] s ->
  Driven b n k x y s ->
  c_outputs (converter_at s c) = map (out b) (seq 0 n) ->
  (k = n -> 0 < n -> Settled n c x y s) ->
  exists s',
    forM_ (map (fun i => (in1 b i, in2 b i, x i, y i)) (seq k m)) body s
    = (s', Done tt)
    /\ Wired b n [ConverterRef c] s'
    /\ Driven b n n x y s'
    /\ c_outputs (converter_at s' c) = map (out b) (seq 0 n)
    /\ (0 < n -> Settled n c x y s').
Proof.
  induction m as [|m IH]; intros k s Hkm HW HD Houts HQ.
  - assert (k = n) as -> by lia. exists s.
    split; [reflexivity|]. split; [assumption|]. split; [assumption|].
    split; [assumption|]. intros Hn. now apply HQ.
  - cbn [seq map forM_]. unfold bind at 1. unfold body at 1.
    destruct (DriveFacts.drive_stage b n c x y k f s)
      as (s1 & -> & HW1 & HD1 & Houts1 & HQ1); auto; [lia|].
    apply IH; auto; [lia|].
    intros <- _. destruct (HQ1 eq_refl) as [Hr Hs].
    split; [exact Hr|]. rewrite Hs. do 2 f_equal. lia.
Qed.

End Drive.

(** [add_drive] run in any store: the circuit is laid out from the store's
    next free wire, and when the loop ends every stage has been driven. *)
Lemma add_drive_spec f a b' num_bits s :
  let n := Z.to_nat num_bits in
  let b := next_wire s in
  let c := next_converter s in
  exists s',
    add_drive (S (S (S f))) a b' num_bits s
    = (s', Done (map (out b) (seq 0 n), c))
    /\ Wired b n [ConverterRef c] s'
    /\ Driven b n n (digit a) (digit b') s'
    /\ c_outputs (converter_at s' c) = map (out b) (seq 0 n)
    /\ (0 < n -> Settled n c (digit a) (digit b') s').
Proof.
  intros n b c. unfold add_drive.
  destruct (BuildFacts.build_circuit_spec (S (S f)) num_bits (digit a)
              (digit b') s) as (s1 & Hrun1 & Hc1 & HW1 & HD1).
  fold n b in Hrun1, HW1, HD1.
  unfold bind at 1. rewrite Hrun1.
  destruct (BuildFacts.Converter_init_spec b n (digit a) (digit b') s1 HW1 HD1)
    as (s2 & Hrun2 & HW2 & HD2 & Hconv2).
  rewrite Hc1 in Hrun2, HW2, Hconv2. fold c in Hrun2, HW2, Hconv2.
  unfold bind at 1. rewrite Hrun2.
  rewrite !CodecFacts.to_binary_low_bits, !AdderArith.low_bits_digits.
  fold n. rewrite zip4_map.
  destruct (drive_loop b n c (digit a) (digit b') f
              (AdderArith.digit_bit a) (AdderArith.digit_bit b') n 0 s2)
    as (s3 & Hrun3 & HW3 & HD3 & Houts3 & HQ3); auto.
  - now rewrite Hconv2.
  - intros <-. lia.
  - unfold bind at 1. rewrite Hrun3. exists s3.
    split; [reflexivity|]. split; [assumption|]. split; [assumption|].
    split; assumption.
Qed.

Local Open Scope Z_scope.

(** Reading the sum bits as a signed number gives the wrapped sum. *)
Lemma signed_read a b' num_bits :
  1 <= num_bits ->
  let n := Z.to_nat num_bits in
  let r := from_binary (map (sum_at (digit a) (digit b')) (seq 0 n)) in
  let sg := sum_at (digit a) (digit b') (n - 1) in
  (if sg =? 1 then - (2 ^ num_bits - r) else r) = wrapped_sum a b' num_bits.
Proof.
  intros Hnb n r sg.
  pose proof (AdderArith.digit_bit a) as Hx.
  pose proof (AdderArith.digit_bit b') as Hy.
  assert (Z.of_nat n = num_bits) as Hn by (subst n; lia).
  (* the unsigned reading is the sum modulo 2^num_bits *)
  assert (r = (a + b') mod 2 ^ num_bits) as Hr.
  { subst r. rewrite CodecFacts.from_binary_le_value
      by (apply AdderArith.sums_bits; assumption).
    pose proof (AdderArith.ripple_value _ _ Hx Hy n) as Hrip.
    pose proof (CodecFacts.le_value_bounds _
                  (AdderArith.sums_bits _ _ Hx Hy n)) as Hbound.
    rewrite length_map, length_seq in Hbound.
    rewrite <- !AdderArith.low_bits_digits, !CodecFacts.low_bits_value in Hrip.
    rewrite Hn in *.
    rewrite Z.add_mod by lia. rewrite <- Hrip.
    rewrite Z.mul_comm, Z.mod_add by lia.
    symmetry. now apply Z.mod_small. }
  (* the sign bit is set exactly when that reading is in the upper half *)
  assert (0 <= r - 2 ^ (num_bits - 1) * sg < 2 ^ (num_bits - 1)) as Hhalf.
  { subst r sg. rewrite CodecFacts.from_binary_le_value
      by (apply AdderArith.sums_bits; assumption).
    assert (le_value (map (sum_at (digit a) (digit b')) (seq 0 n))
            = le_value (map (sum_at (digit a) (digit b')) (seq 0 (n - 1)))
              + 2 ^ (num_bits - 1) * sum_at (digit a) (digit b') (n - 1))
      as ->.
    { replace n with (S (n - 1)) at 1 by lia.
      rewrite seq_S, map_app. cbn [Nat.add map].
      rewrite AdderArith.le_value_snoc, length_map, length_seq.
      do 3 f_equal. lia. }
    pose proof (CodecFacts.le_value_bounds _
                  (AdderArith.sums_bits _ _ Hx Hy (n - 1)%nat)) as Hbound.
    rewrite length_map, length_seq in Hbound.
    replace (Z.of_nat (n - 1)) with (num_bits - 1) in * by lia.
    lia. }
  assert (2 ^ num_bits = 2 * 2 ^ (num_bits - 1)) as Hpow.
  { rewrite <- Z.pow_succ_r by lia. f_equal. lia. }
  unfold wrapped_sum. cbv zeta. rewrite <- Hr.
  destruct (AdderArith.sum_at_bit _ _ Hx Hy (n - 1)%nat) as [Hs|Hs];
    fold sg in Hs; rewrite Hs in *; cbn [Z.eqb Pos.eqb].
  - destruct (Z.ltb_spec r (2 ^ (num_bits - 1))); lia.
  - destruct (Z.ltb_spec r (2 ^ (num_bits - 1))); lia.
Qed.

(** [add], run in any store with room for three nested [set] calls. *)
Lemma add_spec f a b' num_bits s :
  1 <= num_bits ->
  snd (add (S (S (S f))) a b' num_bits s) = Done (wrapped_sum a b' num_bits).
Proof.
  intros Hnb. unfold add. unfold bind at 1.
  destruct (add_drive_spec f a b' num_bits s)
    as (s' & -> & _ & _ & _ & Hset).
  destruct Hset as [Hres Hsign]; [lia|].
  cbn [snd]. unfold add_read, bind, Converter_get_sign, Converter_get_result.
  rewrite Hsign.
  pose proof (signed_read a b' num_bits Hnb) as Hread. cbv zeta in Hread.
  rewrite <- Hread.
  destruct (_ =? 1); cbv beta; rewrite Hres; reflexivity.
Qed.

Lemma wrapped_sum_range a b' num_bits :
  1 <= num_bits ->
  - 2 ^ (num_bits - 1) <= wrapped_sum a b' num_bits <= 2 ^ (num_bits - 1) - 1
  /\ (wrapped_sum a b' num_bits - (a + b')) mod 2 ^ num_bits = 0.
Proof.
  intros Hnb. unfold wrapped_sum. cbv zeta.
  assert (2 ^ num_bits = 2 * 2 ^ (num_bits - 1)) as Hpow.
  { rewrite <- Z.pow_succ_r by lia. f_equal. lia. }
  assert (0 < 2 ^ (num_bits - 1)) by (apply Z.pow_pos_nonneg; lia).
  pose proof (Z.mod_pos_bound (a + b') (2 ^ num_bits) ltac:(lia)) as Hm.
  pose proof (Z.div_mod (a + b') (2 ^ num_bits) ltac:(lia)) as Hdm.
  destruct (Z.ltb_spec ((a + b') mod 2 ^ num_bits) (2 ^ (num_bits - 1))).
  - split; [lia|].
    replace ((a + b') mod 2 ^ num_bits - (a + b'))
      with (- ((a + b') / 2 ^ num_bits) * 2 ^ num_bits) by lia.
    apply Z.mod_mul. lia.
  - split; [lia|].
    replace ((a + b') mod 2 ^ num_bits - 2 ^ num_bits - (a + b'))
      with ((- ((a + b') / 2 ^ num_bits) - 1) * 2 ^ num_bits) by lia.
    apply Z.mod_mul. lia.
Qed.

(** A residue class modulo [2^num_bits] has one member in the signed
    range. *)
Lemma signed_range_unique num_bits t r r' :
  1 <= num_bits ->
  (r - t) mod 2 ^ num_bits = 0 -> (r' - t) mod 2 ^ num_bits = 0 ->
  - 2 ^ (num_bits - 1) <= r <= 2 ^ (num_bits - 1) - 1 ->
  - 2 ^ (num_bits - 1) <= r' <= 2 ^ (num_bits - 1) - 1 ->
  r' = r.
Proof.
  intros Hnb Hr Hr' Hrange Hrange'.
  assert (2 ^ num_bits = 2 * 2 ^ (num_bits - 1)) as Hpow.
  { rewrite <- Z.pow_succ_r by lia. f_equal. lia. }
  assert (0 < 2 ^ (num_bits - 1)) by (apply Z.pow_pos_nonneg; lia).
  apply Z.mod_divide in Hr as [q Hq]; [|lia].
  apply Z.mod_divide in Hr' as [q' Hq']; [|lia].
  assert (r' - r = (q' - q) * 2 ^ num_bits) as Hdiff by lia.
  assert (q' - q = 0) by nia. nia.
Qed.

End AddFacts.
(** ** Every cascade is a sequence of primitive steps *)

Module CascadeFacts.

Import Sim Codec Steps.

Section Steps.

Variable set : nat -> Z -> M unit.
Hypothesis set_steps : forall w v s, rtc prim_step s (fst (set w v s)).

Lemma update_steps o s : rtc prim_step s (fst (update set o s)).
Proof.
  destruct o as [op i1 i2 out|c|name w]; cbn [update].
  - rewrite ExecFacts.gate_update_eq.
    destruct (value_of s i1) as [x|]; [|apply rtc_refl].
    destruct (value_of s i2) as [y|]; [|apply rtc_refl].
    apply set_steps.
  - rewrite ExecFacts.converter_update_eq.
    destruct (read_all s (c_outputs (converter_at s c))) as [bl|] eqn:Hall;
      [|apply rtc_refl].
    assert (prim_step s (write_result c (from_binary bl) s)) as Hres
      by now constructor.
    destruct (last bl) as [sg|] eqn:Hlast; cbn [fst].
    + eapply rtc_l; [exact Hres|]. apply rtc_once.
      apply (step_write_sign c bl); auto.
      * now autorewrite with store.
      * now autorewrite with store.
    + now apply rtc_once.
  - rewrite ExecFacts.display_update_eq.
    destruct (value_of s w) as [v|] eqn:Hv; [|apply rtc_refl].
    apply rtc_once. now apply (step_print name w).
Qed.

Lemma notify_steps obs : forall s,
  rtc prim_step s (fst (Observable_notify_observers set obs s)).
Proof.
  induction obs as [|o obs IH]; intros s; [apply rtc_refl|].
  rewrite ExecFacts.notify_cons.
  pose proof (update_steps o (record_call o s)) as Hup.
  destruct (update set o (record_call o s)) as [s1 [[]|e|]]; cbn [fst] in *.
  - eapply rtc_l; [apply step_record_call|].
    eapply rtc_trans; [exact Hup|]. apply IH.
  - eapply rtc_l; [apply step_record_call|]. exact Hup.
  - eapply rtc_l; [apply step_record_call|]. exact Hup.
Qed.

End Steps.

Lemma Wire_set_steps fuel : forall w v s,
  rtc prim_step s (fst (Wire_set fuel w v s)).
Proof.
  induction fuel as [|fuel IH]; intros w v s; [apply rtc_refl|].
  destruct (in_0_1 v) eqn:Hv.
  - apply ExecFacts.in_0_1_true in Hv.
    rewrite ExecFacts.Wire_set_bit by assumption.
    apply (rtc_l _ _ (write_value w v s)); [now apply step_write_value|].
    now apply notify_steps.
  - apply ExecFacts.in_0_1_false in Hv.
    rewrite ExecFacts.Wire_set_not_bit by assumption. apply rtc_refl.
Qed.

Lemma run_sets_steps l : forall s, rtc prim_step s (run_sets l s).
Proof.
  induction l as [|[[fuel w] v] l IH]; intros s; [apply rtc_refl|].
  cbn [run_sets fold_left]. eapply rtc_trans; [apply Wire_set_steps|].
  apply IH.
Qed.

(** An invariant of the primitive steps is an invariant of every cascade. *)
Lemma steps_invariant (P : Store -> Prop) :
  (forall s s', prim_step s s' -> P s -> P s') ->
  forall s s', rtc prim_step s s' -> P s -> P s'.
Proof. intros Hstep s s' Hrtc. induction Hrtc; eauto. Qed.

(** *** What no step changes, and what steps only add to *)

Lemma step_observers s s' :
  prim_step s s' -> forall w, observers_of s' w = observers_of s w.
Proof. intros [] u; now autorewrite with store. Qed.

Lemma step_outputs s s' :
  prim_step s s' ->
  forall c, c_outputs (converter_at s' c) = c_outputs (converter_at s c).
Proof. intros [] u; now autorewrite with store. Qed.

Lemma step_set_stays s s' :
  prim_step s s' ->
  forall w, is_Some (value_of s w) -> is_Some (value_of s' w).
Proof.
  intros Hstep u Hu.
  destruct Hstep as [w0 v0 s0 Hv0| | | |]; autorewrite with store; auto.
  rewrite StoreFacts.value_of_write_value. case_decide; eauto.
Qed.

Lemma step_bits s s' :
  prim_step s s' ->
  (forall w v, value_of s w = Some v -> is_bit v) ->
  forall w v, value_of s' w = Some v -> is_bit v.
Proof.
  intros Hstep Hbits u x.
  destruct Hstep as [w0 v0 s0 Hv0| | | |]; autorewrite with store; eauto.
  rewrite StoreFacts.value_of_write_value. case_decide; eauto.
  now intros [= <-].
Qed.

Lemma read_all_set_stays s s' ws :
  (forall w, is_Some (value_of s w) -> is_Some (value_of s' w)) ->
  is_Some (read_all s ws) -> is_Some (read_all s' ws).
Proof.
  intros Hmono. induction ws as [|w ws IH]; cbn [read_all]; [eauto|].
  destruct (value_of s w) as [v|] eqn:Hv; [|intros [? [=]]].
  destruct (Hmono w) as [v' ->]; [eauto|].
  destruct (read_all s ws); [|intros [? [=]]].
  intros _. destruct IH as [vs' ->]; eauto.
Qed.

Lemma read_all_unset s ws w :
  w ∈ ws -> value_of s w = None -> read_all s ws = None.
Proof.
  induction ws as [|u ws IH]; intros Hin Hw.
  - now apply elem_of_nil in Hin.
  - cbn [read_all]. apply elem_of_cons in Hin as [->|Hin].
    + now rewrite Hw.
    + rewrite IH by assumption. now destruct (value_of s u).
Qed.

Lemma step_settled_only c s s' :
  prim_step s s' -> settled_only c s -> settled_only c s'.
Proof.
  intros Hstep Hinv. unfold settled_only.
  rewrite (step_outputs _ _ Hstep).
  pose proof (step_set_stays _ _ Hstep) as Hmono.
  destruct Hstep as [w v s _|o s|name w v s _|c' bl s Hall|c' bl sg s Hall _ _].
  - autorewrite with store. intros H.
    eapply read_all_set_stays; [exact Hmono|]. now apply Hinv.
  - now autorewrite with store.
  - now autorewrite with store.
  - autorewrite with store. destruct (decide (c = c')) as [->|Hne].
    + intros _. now rewrite Hall.
    + now rewrite StoreFacts.converter_at_write_result, decide_False.
  - autorewrite with store. destruct (decide (c = c')) as [->|Hne].
    + intros _. now rewrite Hall.
    + now rewrite StoreFacts.converter_at_write_sign, decide_False.
Qed.

End CascadeFacts.
(** ** Cascades in a circuit without feedback run to completion *)

Module WfFacts.

Import Sim Codec Steps.

Local Open Scope nat_scope.

Lemma wf_check_WfP rk s : wf_check rk s = true -> WfP rk s.
Proof.
  unfold wf_check, WfP. rewrite forallb_forall. intros Hall w.
  unfold wire_at. destruct (wires s !! w) as [x|] eqn:Hw; [|reflexivity].
  apply (Hall (w, x)). apply list_elem_of_In. now apply elem_of_map_to_list.
Qed.

Lemma WfP_bits rk s w v : WfP rk s -> value_of s w = Some v -> is_bit v.
Proof.
  intros Hwf Hv. specialize (Hwf w). unfold wire_okb in Hwf.
  apply andb_prop in Hwf as [Hb _]. unfold value_of in Hv.
  rewrite Hv in Hb. now apply ExecFacts.in_0_1_true.
Qed.

Lemma WfP_observers rk s w :
  WfP rk s -> forallb (observer_okb rk s w) (observers_of s w) = true.
Proof.
  intros Hwf. specialize (Hwf w). unfold wire_okb in Hwf.
  now apply andb_prop in Hwf as [_ Ho].
Qed.

Lemma observer_okb_ext rk s s' w o :
  (forall c, c_outputs (converter_at s' c) = c_outputs (converter_at s c)) ->
  observer_okb rk s' w o = observer_okb rk s w o.
Proof. intros Hc. destruct o; cbn; [reflexivity| |reflexivity]. now rewrite Hc. Qed.

Lemma forallb_same {A} (f g : A -> bool) l :
  (forall x, f x = g x) -> forallb f l = forallb g l.
Proof.
  intros Hfg. induction l as [|x l IH]; cbn; [reflexivity|].
  now rewrite Hfg, IH.
Qed.

Lemma WfP_step rk s s' : prim_step s s' -> WfP rk s -> WfP rk s'.
Proof.
  intros Hstep Hwf w. unfold wire_okb.
  change (w_value (wire_at s' w)) with (value_of s' w).
  change (w_observers (wire_at s' w)) with (observers_of s' w).
  apply andb_true_intro. split.
  - destruct (value_of s' w) as [v|] eqn:Hv; [|reflexivity].
    apply ExecFacts.in_0_1_true.
    eapply (CascadeFacts.step_bits _ _ Hstep); [|exact Hv].
    intros u x. now apply (WfP_bits rk).
  - rewrite (CascadeFacts.step_observers _ _ Hstep).
    rewrite (forallb_same _ (observer_okb rk s w));
      [now apply WfP_observers|].
    intros o. apply observer_okb_ext.
    apply (CascadeFacts.step_outputs _ _ Hstep).
Qed.

(** What a cascade keeps, whatever its outcome. *)
Lemma steps_keep rk s s' :
  rtc prim_step s s' ->
  WfP rk s ->
  WfP rk s'
  /\ (forall w, observers_of s' w = observers_of s w)
  /\ (forall c, c_outputs (converter_at s' c) = c_outputs (converter_at s c))
  /\ (forall w, is_Some (value_of s w) -> is_Some (value_of s' w)).
Proof.
  induction 1 as [s|s s1 s' Hstep _ IH]; intros Hwf; [auto|].
  destruct (IH (WfP_step rk _ _ Hstep Hwf)) as (Hwf' & Ho & Hc & Hm).
  split; [exact Hwf'|]. split; [|split].
  - intros w. now rewrite Ho, (CascadeFacts.step_observers _ _ Hstep).
  - intros c. now rewrite Hc, (CascadeFacts.step_outputs _ _ Hstep).
  - intros w Hw. apply Hm. now apply (CascadeFacts.step_set_stays _ _ Hstep).
Qed.

Section Done.

Variable rk : nat -> nat.

Variable set : nat -> Z -> M unit.
Variable bound : nat.
Hypothesis set_steps : forall w v s, rtc prim_step s (fst (set w v s)).
Hypothesis set_done : forall w v s,
  WfP rk s -> is_bit v -> rk w < bound ->
  exists s', set w v s = (s', Done tt) /\ set_result rk w v s s'.

Lemma update_done w o s :
  WfP rk s -> is_Some (value_of s w) -> rk w <= bound ->
  observer_okb rk s w o = true ->
  exists s',
    update set o s = (s', Done tt)
    /\ (forall u, rk w <= rk u -> value_of s' u = value_of s u)
    /\ exists tr, calls s' = calls s ++ tr.
Proof.
  intros Hwf Hw Hrk Hok.
  destruct o as [op i1 i2 out|c|name u]; cbn [update observer_okb] in *.
  - apply bool_decide_eq_true in Hok.
    rewrite ExecFacts.gate_update_eq.
    destruct (value_of s i1) as [x|] eqn:H1;
      [|exists s; repeat split; auto; exists []; now rewrite app_nil_r].
    destruct (value_of s i2) as [y|] eqn:H2;
      [|exists s; repeat split; auto; exists []; now rewrite app_nil_r].
    destruct (set_done out (operation op x y) s) as (s' & -> & _ & Hfr & tr & Htr & _);
      auto; [|lia|].
    { apply ExecFacts.operation_bit; eapply (WfP_bits rk); eauto. }
    exists s'. split; [reflexivity|]. split; [|eauto].
    intros u Hu. apply Hfr; [lia|]. intros ->. lia.
  - rewrite ExecFacts.converter_update_eq.
    destruct (read_all s (c_outputs (converter_at s c))) as [bl|] eqn:Hall;
      [|exists s; repeat split; auto; exists []; now rewrite app_nil_r].
    apply ExecFacts.read_all_length in Hall.
    destruct (c_outputs (converter_at s c)) as [|o0 os]; [discriminate|].
    destruct bl as [|d bl] using rev_ind; [discriminate|].
    rewrite last_snoc. eexists. split; [reflexivity|].
    split; [intros; now autorewrite with store|].
    exists []. autorewrite with store. now rewrite app_nil_r.
  - apply bool_decide_eq_true in Hok. subst u.
    rewrite ExecFacts.display_update_eq.
    destruct Hw as [v ->]. eexists. split; [reflexivity|].
    split; [intros; now autorewrite with store|].
    exists []. autorewrite with store. now rewrite app_nil_r.
Qed.

Lemma notify_done w obs : forall s,
  WfP rk s -> is_Some (value_of s w) -> rk w <= bound ->
  forallb (observer_okb rk s w) obs = true ->
  exists s',
    Observable_notify_observers set obs s = (s', Done tt)
    /\ (forall u, rk w <= rk u -> value_of s' u = value_of s u)
    /\ exists tr, calls s' = calls s ++ tr /\ obs `sublist_of` tr.
Proof.
  induction obs as [|o obs IH]; intros s Hwf Hw Hrk Hok.
  - exists s. split; [reflexivity|]. split; [auto|].
    exists []. rewrite app_nil_r. split; [reflexivity|constructor].
  - cbn [forallb] in Hok. apply andb_prop in Hok as [Ho Hok].
    rewrite ExecFacts.notify_cons.
    assert (prim_step s (record_call o s)) as Hrc by constructor.
    pose proof (WfP_step rk _ _ Hrc Hwf) as Hwf1.
    assert (is_Some (value_of (record_call o s) w)) as Hw1
      by now autorewrite with store.
    assert (observer_okb rk (record_call o s) w o = true) as Ho1.
    { rewrite (observer_okb_ext rk s); [exact Ho|].
      intros; now autorewrite with store. }
    destruct (update_done w o (record_call o s) Hwf1 Hw1 Hrk Ho1)
      as (s1 & Hrun & Hfr1 & tr1 & Htr1).
    pose proof (CascadeFacts.update_steps set set_steps o (record_call o s))
      as Hsteps.
    rewrite Hrun in *. cbn [fst] in Hsteps.
    destruct (steps_keep rk _ _ Hsteps Hwf1) as (Hwf2 & Ho2 & Hc2 & Hm2).
    assert (is_Some (value_of s1 w)) as Hw2 by now apply Hm2.
    assert (forallb (observer_okb rk s1 w) obs = true) as Hok2.
    { rewrite (forallb_same _ (observer_okb rk s w)); [exact Hok|].
      intros o'. apply observer_okb_ext. intros c.
      rewrite Hc2. now autorewrite with store. }
    destruct (IH s1 Hwf2 Hw2 Hrk Hok2) as (s' & -> & Hfr & tr & Htr & Hsub).
    exists s'. split; [reflexivity|]. split.
    + intros u Hu. rewrite Hfr, Hfr1 by assumption. now autorewrite with store.
    + exists ([o] ++ tr1 ++ tr). split.
      * rewrite Htr, Htr1. autorewrite with store.
        now rewrite <- !app_assoc.
      * cbn [app]. apply sublist_skip. now apply sublist_inserts_l.
Qed.

End Done.

(** [set] on a wire of rank below the recursion bound completes. *)
Lemma Wire_set_done rk fuel : forall w v s,
  WfP rk s -> is_bit v -> rk w < fuel ->
  exists s', Wire_set fuel w v s = (s', Done tt) /\ set_result rk w v s s'.
Proof.
  induction fuel as [|fuel IH]; intros w v s Hwf Hv Hrk; [lia|].
  rewrite ExecFacts.Wire_set_bit by assumption.
  assert (prim_step s (write_value w v s)) as Hwr by now constructor.
  destruct (notify_done rk (Wire_set fuel) fuel
              (CascadeFacts.Wire_set_steps fuel) IH w (observers_of s w)
              (write_value w v s))
    as (s' & -> & Hfr & tr & Htr & Hsub).
  - now apply (WfP_step rk s).
  - rewrite StoreFacts.value_of_write_value_eq by reflexivity. eauto.
  - lia.
  - rewrite (forallb_same _ (observer_okb rk s w)).
    + now apply WfP_observers.
    + intros o. apply observer_okb_ext. intros; now autorewrite with store.
  - exists s'. split; [reflexivity|]. split; [|split].
    + rewrite Hfr by lia. now rewrite StoreFacts.value_of_write_value_eq.
    + intros u Hu Hne. rewrite Hfr by assumption.
      now rewrite StoreFacts.value_of_write_value_ne.
    + exists tr. split; [|exact Hsub]. now rewrite Htr.
Qed.

End WfFacts.
(** ** A converter reads nothing before its wires are set *)

Module ConverterFacts.

Import Sim Codec Steps.

Lemma add_observers_frame o (l : list nat) : forall s,
  exists s',
    forM_ l (fun w => Observable_add_observer w o) s = (s', Done tt)
    /\ (forall w, value_of s' w = value_of s w)
    /\ (forall c, converter_at s' c = converter_at s c).
Proof.
  induction l as [|u l IH]; intros s.
  - exists s. split; [reflexivity|]. split; reflexivity.
  - cbn [forM_]. unfold bind. cbn [Observable_add_observer modify].
    destruct (IH (push_observer u o s)) as (s' & -> & Hv & Hc).
    exists s'. split; [reflexivity|]. split.
    + intros w. rewrite Hv. now autorewrite with store.
    + intros c. rewrite Hc. now autorewrite with store.
Qed.

(** [Converter(outputs)] returns a new converter that holds the wire list
    and neither a result nor a sign; no wire value changes. *)
Lemma Converter_init_fresh outs s :
  exists s',
    Converter_init outs s = (s', Done (next_converter s))
    /\ converter_at s' (next_converter s) = mkConverter outs None None
    /\ (forall w, value_of s' w = value_of s w).
Proof.
  unfold Converter_init. unfold bind at 1.
  destruct (add_observers_frame (ConverterRef (next_converter s)) outs
              (alloc_converter outs s)) as (s' & Hrun & Hv & Hc).
  unfold bind at 1. rewrite Hrun. exists s'. split; [reflexivity|]. split.
  - rewrite Hc, StoreFacts.converter_at_alloc_converter.
    now rewrite decide_True.
  - intros w. now rewrite Hv.
Qed.

Lemma steps_settled_only c s s' :
  rtc prim_step s s' -> settled_only c s -> settled_only c s'.
Proof.
  intros Hsteps. revert s s' Hsteps.
  apply (CascadeFacts.steps_invariant (settled_only c)).
  intros s s' Hstep. now apply CascadeFacts.step_settled_only.
Qed.

Lemma steps_outputs s s' :
  rtc prim_step s s' ->
  forall c, c_outputs (converter_at s' c) = c_outputs (converter_at s c).
Proof.
  induction 1 as [s|s s1 s' Hstep _ IH]; intros c; [reflexivity|].
  now rewrite IH, (CascadeFacts.step_outputs _ _ Hstep).
Qed.

Lemma steps_observers s s' :
  rtc prim_step s s' -> forall w, observers_of s' w = observers_of s w.
Proof.
  induction 1 as [s|s s1 s' Hstep _ IH]; intros w; [reflexivity|].
  now rewrite IH, (CascadeFacts.step_observers _ _ Hstep).
Qed.

Lemma steps_set_stays s s' :
  rtc prim_step s s' ->
  forall w, is_Some (value_of s w) -> is_Some (value_of s' w).
Proof.
  induction 1 as [s|s s1 s' Hstep _ IH]; intros w Hw; [assumption|].
  apply IH. now apply (CascadeFacts.step_set_stays _ _ Hstep).
Qed.

Lemma step_counters s s' :
  prim_step s s' ->
  next_wire s' = next_wire s /\ next_converter s' = next_converter s.
Proof. intros []; split; reflexivity. Qed.

Lemma steps_counters s s' :
  rtc prim_step s s' ->
  next_wire s' = next_wire s /\ next_converter s' = next_converter s.
Proof.
  induction 1 as [s|s s1 s' Hstep _ [IH1 IH2]]; [split; reflexivity|].
  destruct (step_counters _ _ Hstep) as [H1 H2]. split; congruence.
Qed.

(** While one wire of a converter is unset, the converter has neither a
    result nor a sign, provided it had none when it was unsettled. *)
Lemma unsettled_reads c s w :
  settled_only c s ->
  w ∈ c_outputs (converter_at s c) -> value_of s w = None ->
  Converter_get_result c s = (s, Raise AttributeError)
  /\ Converter_get_sign c s = (s, Raise AttributeError).
Proof.
  intros Hinv Hin Hw. unfold settled_only in Hinv.
  rewrite (CascadeFacts.read_all_unset _ _ w) in Hinv by assumption.
  unfold Converter_get_result, Converter_get_sign.
  destruct (c_result (converter_at s c)) as [r|].
  { destruct Hinv as [? [=]]. left; eauto. }
  destruct (c_sign (converter_at s c)) as [sg|].
  { destruct Hinv as [? [=]]. right; eauto. }
  split; reflexivity.
Qed.

End ConverterFacts.
(** ** A larger recursion bound changes nothing once a call completes *)

Module FuelFacts.

Import Sim Codec.

Section Mono.

Variables set set' : nat -> Z -> M unit.
Hypothesis set_mono : forall w v s,
  snd (set w v s) <> OutOfFuel -> set' w v s = set w v s.

Lemma update_mono o s :
  snd (update set o s) <> OutOfFuel -> update set' o s = update set o s.
Proof.
  destruct o as [op i1 i2 out|c|name w]; cbn [update]; [|reflexivity..].
  rewrite !ExecFacts.gate_update_eq.
  destruct (value_of s i1); [|reflexivity].
  destruct (value_of s i2); [|reflexivity].
  apply set_mono.
Qed.

Lemma notify_mono obs : forall s,
  snd (Observable_notify_observers set obs s) <> OutOfFuel ->
  Observable_notify_observers set' obs s
  = Observable_notify_observers set obs s.
Proof.
  induction obs as [|o obs IH]; intros s Hrun; [reflexivity|].
  rewrite !ExecFacts.notify_cons in *.
  rewrite update_mono.
  - destruct (update set o (record_call o s)) as [s1 [[]|e|]];
      [now apply IH|reflexivity|reflexivity].
  - destruct (update set o (record_call o s)) as [s1 [[]|e|]];
      cbn [snd] in *; congruence.
Qed.

End Mono.

Lemma Wire_set_mono fuel : forall w v s,
  snd (Wire_set fuel w v s) <> OutOfFuel ->
  Wire_set (S fuel) w v s = Wire_set fuel w v s.
Proof.
  induction fuel as [|fuel IH]; intros w v s Hrun.
  - now contradict Hrun.
  - destruct (in_0_1 v) eqn:Hv.
    + apply ExecFacts.in_0_1_true in Hv.
      rewrite !ExecFacts.Wire_set_bit in * by assumption.
      now apply notify_mono.
    + apply ExecFacts.in_0_1_false in Hv.
      now rewrite !ExecFacts.Wire_set_not_bit by assumption.
Qed.

Lemma forM_mono {A} (body body' : A -> M unit) l : forall s,
  (forall a st, snd (body a st) <> OutOfFuel -> body' a st = body a st) ->
  snd (forM_ l body s) <> OutOfFuel ->
  forM_ l body' s = forM_ l body s.
Proof.
  induction l as [|a l IH]; intros s Hbody Hrun; [reflexivity|].
  cbn [forM_] in *. unfold bind in *.
  rewrite Hbody.
  - destruct (body a s) as [s1 [[]|e|]];
      [now apply IH|reflexivity|reflexivity].
  - destruct (body a s) as [s1 [[]|e|]]; cbn [snd] in *; congruence.
Qed.

Lemma bind_mono {A B} (m : M A) (k k' : A -> M B) s :
  (forall a st, snd (k a st) <> OutOfFuel -> k' a st = k a st) ->
  snd (bind m k s) <> OutOfFuel -> bind m k' s = bind m k s.
Proof.
  unfold bind. intros Hk Hrun.
  destruct (m s) as [s1 [a|e|]]; [now apply Hk|reflexivity|reflexivity].
Qed.

Lemma bind_mono_l {A B} (m m' : M A) (k : A -> M B) s :
  (snd (m s) <> OutOfFuel -> m' s = m s) ->
  snd (bind m k s) <> OutOfFuel -> bind m' k s = bind m k s.
Proof.
  unfold bind. intros Hm Hrun. rewrite Hm; [reflexivity|].
  destruct (m s) as [s1 [a|e|]]; cbn [snd] in *; congruence.
Qed.

Lemma full_adder_trial_mono fuel order x y c s :
  snd (full_adder_trial fuel order x y c s) <> OutOfFuel ->
  full_adder_trial (S fuel) order x y c s
  = full_adder_trial fuel order x y c s.
Proof.
  unfold full_adder_trial.
  do 6 (apply bind_mono; intros ? ?).
  apply bind_mono_l. apply forM_mono.
  intros [] st' Hst; now apply Wire_set_mono.
Qed.

Lemma full_adder_trial_more k : forall fuel order x y c s,
  snd (full_adder_trial fuel order x y c s) <> OutOfFuel ->
  full_adder_trial (k + fuel) order x y c s
  = full_adder_trial fuel order x y c s.
Proof.
  induction k as [|k IH]; intros fuel order x y c s Hrun; [reflexivity|].
  cbn [Nat.add]. rewrite full_adder_trial_mono; rewrite IH; auto.
Qed.

Lemma gate_trial_mono fuel op order x y s :
  snd (gate_trial fuel op order x y s) <> OutOfFuel ->
  gate_trial (S fuel) op order x y s = gate_trial fuel op order x y s.
Proof.
  unfold gate_trial.
  do 4 (apply bind_mono; intros ? ?).
  apply bind_mono_l. apply forM_mono.
  intros [] st' Hst; now apply Wire_set_mono.
Qed.

Lemma gate_trial_more k : forall fuel op order x y s,
  snd (gate_trial fuel op order x y s) <> OutOfFuel ->
  gate_trial (k + fuel) op order x y s = gate_trial fuel op order x y s.
Proof.
  induction k as [|k IH]; intros fuel op order x y s Hrun; [reflexivity|].
  cbn [Nat.add]. rewrite gate_trial_mono; rewrite IH; auto.
Qed.

Lemma half_adder_trial_mono fuel order x y s :
  snd (half_adder_trial fuel order x y s) <> OutOfFuel ->
  half_adder_trial (S fuel) order x y s = half_adder_trial fuel order x y s.
Proof.
  unfold half_adder_trial.
  do 5 (apply bind_mono; intros ? ?).
  apply bind_mono_l. apply forM_mono.
  intros [] st' Hst; now apply Wire_set_mono.
Qed.

Lemma half_adder_trial_more k : forall fuel order x y s,
  snd (half_adder_trial fuel order x y s) <> OutOfFuel ->
  half_adder_trial (k + fuel) order x y s = half_adder_trial fuel order x y s.
Proof.
  induction k as [|k IH]; intros fuel order x y s Hrun; [reflexivity|].
  cbn [Nat.add]. rewrite half_adder_trial_mono; rewrite IH; auto.
Qed.

End FuelFacts.
(** ** What a completed notification has done *)

Module NotifyFacts.

Import Sim Codec Steps.

Lemma step_calls s s' : prim_step s s' -> exists tr, calls s' = calls s ++ tr.
Proof.
  intros []; autorewrite with store; eauto;
    exists []; now rewrite app_nil_r.
Qed.

Lemma steps_calls s s' :
  rtc prim_step s s' -> exists tr, calls s' = calls s ++ tr.
Proof.
  induction 1 as [s|s s1 s' Hstep _ [tr IH]].
  - exists []. now rewrite app_nil_r.
  - destruct (step_calls _ _ Hstep) as [tr1 H1].
    exists (tr1 ++ tr). now rewrite IH, H1, app_assoc.
Qed.

Section Notify.

Variable set : nat -> Z -> M unit.
Hypothesis set_steps : forall w v s, rtc prim_step s (fst (set w v s)).

(** As soon as there is one observer, the history grows. *)
Lemma notify_cons_calls o obs s :
  exists tr,
    calls (fst (Observable_notify_observers set (o :: obs) s))
    = calls s ++ o :: tr.
Proof.
  rewrite ExecFacts.notify_cons.
  pose proof (CascadeFacts.update_steps set set_steps o (record_call o s))
    as Hup.
  destruct (update set o (record_call o s)) as [s1 out] eqn:Hrun.
  cbn [fst] in Hup. destruct (steps_calls _ _ Hup) as [tr1 H1].
  rewrite StoreFacts.calls_record_call in H1.
  destruct out as [[]|e|]; cbn [fst].
  - pose proof (CascadeFacts.notify_steps set set_steps obs s1) as Hrest.
    destruct (steps_calls _ _ Hrest) as [tr2 H2].
    exists (tr1 ++ tr2). rewrite H2, H1. now rewrite <- !app_assoc.
  - exists tr1. rewrite H1. now rewrite <- app_assoc.
  - exists tr1. rewrite H1. now rewrite <- app_assoc.
Qed.

(** A notification that completes has called every observer, in order. *)
Lemma notify_done_calls obs : forall s s',
  Observable_notify_observers set obs s = (s', Done tt) ->
  exists tr, calls s' = calls s ++ tr /\ obs `sublist_of` tr.
Proof.
  induction obs as [|o obs IH]; intros s s' Hrun.
  - rewrite ExecFacts.notify_nil in Hrun. injection Hrun as <-.
    exists []. rewrite app_nil_r. split; [reflexivity|constructor].
  - rewrite ExecFacts.notify_cons in Hrun.
    pose proof (CascadeFacts.update_steps set set_steps o (record_call o s))
      as Hup.
    destruct (update set o (record_call o s)) as [s1 [[]|e|]]; try discriminate.
    cbn [fst] in Hup. destruct (steps_calls _ _ Hup) as [tr1 H1].
    rewrite StoreFacts.calls_record_call in H1.
    destruct (IH _ _ Hrun) as (tr & Htr & Hsub).
    exists (o :: tr1 ++ tr). split.
    + rewrite Htr, H1. now rewrite <- !app_assoc.
    + apply sublist_skip. now apply sublist_inserts_l.
Qed.

End Notify.

(** [set] with a value that is 0 or 1 never ends as a failure of its own
    check, that is, with [AssertionError] and the store untouched. *)
Lemma Wire_set_bit_not_own_failure fuel w v s :
  is_bit v -> Wire_set fuel w v s <> (s, Raise AssertionError).
Proof.
  intros Hv Hrun. destruct fuel as [|fuel]; [discriminate|].
  rewrite ExecFacts.Wire_set_bit in Hrun by assumption.
  destruct (observers_of s w) as [|o obs]; [discriminate|].
  destruct (notify_cons_calls (Wire_set fuel)
              (CascadeFacts.Wire_set_steps fuel) o obs (write_value w v s))
    as [tr Htr].
  rewrite Hrun in Htr. cbn [fst] in Htr.
  rewrite StoreFacts.calls_write_value in Htr.
  apply (f_equal length) in Htr. rewrite length_app in Htr.
  cbn [length] in Htr. lia.
Qed.

Lemma Wire_set_bit_sets fuel w v s :
  is_bit v -> (1 <= fuel)%nat ->
  is_Some (value_of (fst (Wire_set fuel w v s)) w).
Proof.
  intros Hv Hfuel. destruct fuel as [|fuel]; [lia|].
  rewrite ExecFacts.Wire_set_bit by assumption.
  eapply ConverterFacts.steps_set_stays.
  - apply CascadeFacts.notify_steps, CascadeFacts.Wire_set_steps.
  - rewrite StoreFacts.value_of_write_value_eq by reflexivity. eauto.
Qed.

Lemma Wire_set_done_bit fuel w v s s' :
  Wire_set fuel w v s = (s', Done tt) -> is_bit v.
Proof.
  intros Hrun. destruct fuel as [|fuel]; [discriminate|].
  destruct (in_0_1 v) eqn:Hv; [now apply ExecFacts.in_0_1_true|].
  apply ExecFacts.in_0_1_false in Hv.
  rewrite ExecFacts.Wire_set_not_bit in Hrun by assumption. discriminate.
Qed.

Lemma Wire_set_done_calls fuel w v s s' :
  Wire_set fuel w v s = (s', Done tt) ->
  exists tr, calls s' = calls s ++ tr /\ observers_of s w `sublist_of` tr.
Proof.
  intros Hrun. pose proof (Wire_set_done_bit _ _ _ _ _ Hrun) as Hv.
  destruct fuel as [|fuel]; [discriminate|].
  rewrite ExecFacts.Wire_set_bit in Hrun by assumption.
  apply (notify_done_calls (Wire_set fuel)
           (CascadeFacts.Wire_set_steps fuel)) in Hrun.
  now rewrite StoreFacts.calls_write_value in Hrun.
Qed.

(** The old value of a wire plays no part in [set]. *)
Lemma write_value_clear_value w v s :
  write_value w v (clear_value w s) = write_value w v s.
Proof.
  unfold write_value, clear_value, put_wire, observers_of at 1, wire_at.
  cbn [wires next_wire converters next_converter stdout calls].
  rewrite lookup_insert_eq. cbn [default w_observers].
  now rewrite insert_insert_eq.
Qed.

Lemma observers_of_clear_value w s u :
  observers_of (clear_value w s) u = observers_of s u.
Proof.
  unfold clear_value, observers_of. rewrite StoreFacts.wire_at_put_wire.
  case_decide; [now subst|reflexivity].
Qed.

Lemma Wire_set_clear_value fuel w v s :
  is_bit v -> (1 <= fuel)%nat ->
  Wire_set fuel w v (clear_value w s) = Wire_set fuel w v s.
Proof.
  intros Hv Hfuel. destruct fuel as [|fuel]; [lia|].
  rewrite !ExecFacts.Wire_set_bit by assumption.
  now rewrite observers_of_clear_value, write_value_clear_value.
Qed.

End NotifyFacts.
(** ** A registered converter follows its wires *)

Module SyncFacts.

Import Sim Codec Steps.

Lemma read_all_write_value_notin u x s ws :
  u ∉ ws -> read_all (write_value u x s) ws = read_all s ws.
Proof.
  induction ws as [|w ws IH]; intros Hu; [reflexivity|].
  apply not_elem_of_cons in Hu as [Hne Hu]. cbn [read_all].
  rewrite StoreFacts.value_of_write_value_ne by congruence.
  now rewrite IH.
Qed.

Lemma up_to_date_ext c s s' :
  (forall w, value_of s' w = value_of s w) ->
  converter_at s' c = converter_at s c ->
  up_to_date c s -> up_to_date c s'.
Proof.
  intros Hv Hc Hup bl. rewrite Hc.
  rewrite <- (ExecFacts.read_all_frame s s') by assumption. apply Hup.
Qed.

Lemma up_to_date_record_call c o s :
  up_to_date c s -> up_to_date c (record_call o s).
Proof. apply up_to_date_ext; intros; now autorewrite with store. Qed.

(** [update] of the converter itself brings it up to date. *)
Lemma Converter_update_up_to_date c s s' :
  Converter_update c s = (s', Done tt) -> up_to_date c s'.
Proof.
  rewrite ExecFacts.converter_update_eq.
  destruct (read_all s (c_outputs (converter_at s c))) as [bl|] eqn:Hall.
  - destruct (last bl) as [sg|] eqn:Hlast; [|discriminate].
    intros [= <-] bl'.
    rewrite StoreFacts.c_outputs_write_sign, StoreFacts.c_outputs_write_result.
    rewrite StoreFacts.read_all_write_sign, StoreFacts.read_all_write_result.
    rewrite Hall. intros [= <-].
    rewrite StoreFacts.c_result_write_sign, StoreFacts.c_result_write_result.
    rewrite StoreFacts.c_sign_write_sign. now rewrite Hlast.
  - intros [= <-] bl'. now rewrite Hall.
Qed.

(** [update] of another converter, or of a display, leaves it as it is. *)
Lemma Converter_update_other c c' s :
  c' <> c -> up_to_date c s -> up_to_date c (fst (Converter_update c' s)).
Proof.
  intros Hne Hup. rewrite ExecFacts.converter_update_eq.
  destruct (read_all s (c_outputs (converter_at s c'))) as [bl|];
    [|exact Hup].
  assert (up_to_date c (write_result c' (from_binary bl) s)) as Hres.
  { revert Hup. apply up_to_date_ext.
    - intros w. now autorewrite with store.
    - rewrite StoreFacts.converter_at_write_result.
      now rewrite decide_False by congruence. }
  destruct (last bl) as [sg|]; cbn [fst]; [|exact Hres].
  revert Hres. apply up_to_date_ext.
  - intros w. now autorewrite with store.
  - rewrite StoreFacts.converter_at_write_sign.
    now rewrite decide_False by congruence.
Qed.

Lemma Display_update_up_to_date c name w s :
  up_to_date c s -> up_to_date c (fst (Display_update name w s)).
Proof.
  intros Hup. rewrite ExecFacts.display_update_eq.
  destruct (value_of s w) as [v|]; [|exact Hup]. cbn [fst].
  revert Hup. apply up_to_date_ext; intros; now autorewrite with store.
Qed.

Lemma registered_steps c s s' :
  rtc prim_step s s' -> registered c s -> registered c s'.
Proof.
  intros Hsteps Hreg u.
  rewrite (ConverterFacts.steps_outputs _ _ Hsteps).
  rewrite (ConverterFacts.steps_observers _ _ Hsteps). apply Hreg.
Qed.

Section Notify.

Variable c : nat.
Variable set : nat -> Z -> M unit.
Hypothesis set_steps : forall w v s, rtc prim_step s (fst (set w v s)).
Hypothesis set_keeps : forall u x s s',
  registered c s -> set u x s = (s', Done tt) ->
  up_to_date c s -> up_to_date c s'.

Lemma update_keeps o s s' :
  registered c s -> update set o s = (s', Done tt) ->
  o = ConverterRef c \/ up_to_date c s -> up_to_date c s'.
Proof.
  intros Hreg Hrun Hcase.
  destruct o as [op i1 i2 out|c'|name w]; cbn [update] in Hrun.
  - destruct Hcase as [[=]|Hup].
    rewrite ExecFacts.gate_update_eq in Hrun.
    destruct (value_of s i1) as [x|]; [|now injection Hrun as <-].
    destruct (value_of s i2) as [y|]; [|now injection Hrun as <-].
    now apply (set_keeps _ _ _ _ Hreg Hrun).
  - destruct (decide (c' = c)) as [->|Hne].
    { now apply (Converter_update_up_to_date c s). }
    destruct Hcase as [[=]|Hup]; [contradiction|].
    replace s' with (fst (Converter_update c' s)) by now rewrite Hrun.
    now apply Converter_update_other.
  - destruct Hcase as [[=]|Hup].
    replace s' with (fst (Display_update name w s)) by now rewrite Hrun.
    now apply Display_update_up_to_date.
Qed.

Lemma notify_keeps obs : forall s s',
  registered c s ->
  Observable_notify_observers set obs s = (s', Done tt) ->
  ConverterRef c ∈ obs \/ up_to_date c s -> up_to_date c s'.
Proof.
  induction obs as [|o obs IH]; intros s s' Hreg Hrun Hcase.
  - rewrite ExecFacts.notify_nil in Hrun. injection Hrun as <-.
    destruct Hcase as [Hin|Hup]; [|exact Hup].
    now apply elem_of_nil in Hin.
  - rewrite ExecFacts.notify_cons in Hrun.
    pose proof (CascadeFacts.update_steps set set_steps o (record_call o s))
      as Hsteps.
    destruct (update set o (record_call o s)) as [s1 [[]|e|]] eqn:Hup;
      try discriminate.
    cbn [fst] in Hsteps.
    assert (registered c (record_call o s)) as Hreg0.
    { intros u. autorewrite with store. apply Hreg. }
    apply (IH s1 s'); [now apply (registered_steps c _ _ Hsteps)|exact Hrun|].
    destruct Hcase as [Hin|Hupd].
    + apply elem_of_cons in Hin as [Heq|Hin]; [subst o|now left].
      right. apply (update_keeps (ConverterRef c)
                      (record_call (ConverterRef c) s));
        [exact Hreg0|exact Hup|now left].
    + right. apply (update_keeps o (record_call o s)); [exact Hreg0|exact Hup|].
      right. now apply up_to_date_record_call.
Qed.

End Notify.

(** A [set] that returns leaves a registered converter up to date, if the
    wire is one of the converter's or the converter was up to date. *)
Lemma Wire_set_keeps_up_to_date c fuel : forall u x s s',
  registered c s -> Wire_set fuel u x s = (s', Done tt) ->
  u ∈ c_outputs (converter_at s c) \/ up_to_date c s -> up_to_date c s'.
Proof.
  induction fuel as [|fuel IH]; intros u x s s' Hreg Hrun Hcase;
    [discriminate|].
  pose proof (NotifyFacts.Wire_set_done_bit _ _ _ _ _ Hrun) as Hx.
  rewrite ExecFacts.Wire_set_bit in Hrun by assumption.
  assert (registered c (write_value u x s)) as Hreg'.
  { intros w. autorewrite with store. apply Hreg. }
  apply (notify_keeps c (Wire_set fuel) (CascadeFacts.Wire_set_steps fuel))
    with (obs := observers_of s u) (s := write_value u x s);
    [|exact Hreg'|exact Hrun|].
  { intros u' x' s0 s0' Hreg0 Hrun0 Hup0. apply (IH u' x' s0 s0'); auto. }
  destruct (decide (u ∈ c_outputs (converter_at s c))) as [Hin|Hnotin].
  - left. now apply Hreg.
  - right. destruct Hcase as [Hin|Hup]; [contradiction|].
    intros bl. autorewrite with store.
    rewrite read_all_write_value_notin by assumption. apply Hup.
Qed.

Lemma do_sets_steps l : forall s, rtc prim_step s (fst (do_sets l s)).
Proof.
  induction l as [|[[fuel w] v] l IH]; intros s; [apply rtc_refl|].
  unfold do_sets. cbn [forM_]. unfold bind.
  pose proof (CascadeFacts.Wire_set_steps fuel w v s) as Hset.
  destruct (Wire_set fuel w v s) as [s1 [[]|e|]]; cbn [fst] in *; auto.
  eapply rtc_trans; [exact Hset|]. apply IH.
Qed.

(** The same for a program of [set] calls that all return. *)
Lemma do_sets_keeps_up_to_date c l : forall s s',
  registered c s -> do_sets l s = (s', Done tt) ->
  Exists (fun p => p.1.2 ∈ c_outputs (converter_at s c)) l
  \/ up_to_date c s ->
  up_to_date c s'.
Proof.
  induction l as [|[[fuel u] x] l IH]; intros s s' Hreg Hrun Hcase.
  - injection Hrun as <-. destruct Hcase as [Hex|Hup]; [|exact Hup].
    now apply Exists_nil in Hex.
  - unfold do_sets in Hrun. cbn [forM_] in Hrun. unfold bind in Hrun.
    pose proof (CascadeFacts.Wire_set_steps fuel u x s) as Hsteps.
    destruct (Wire_set fuel u x s) as [s1 [[]|e|]] eqn:Hset;
      try discriminate.
    cbn [fst] in Hsteps.
    apply (IH s1 s'); [now apply (registered_steps c _ _ Hsteps)|exact Hrun|].
    rewrite (ConverterFacts.steps_outputs _ _ Hsteps).
    destruct Hcase as [Hex|Hup].
    + apply Exists_cons in Hex as [Hin|Hex]; [|now left].
      right. apply (Wire_set_keeps_up_to_date c fuel u x s); auto.
    + right. apply (Wire_set_keeps_up_to_date c fuel u x s); auto.
Qed.

(** In a well-formed circuit a program of [set] calls with values in
    {0,1} and recursion bounds above the ranks of their wires returns. *)
Lemma do_sets_done rk l : forall s,
  WfP rk s ->
  Forall (fun p => (rk (snd (fst p)) < fst (fst p))%nat /\ is_bit (snd p)) l ->
  exists s', do_sets l s = (s', Done tt).
Proof.
  induction l as [|[[fuel u] x] l IH]; intros s Hwf Hall.
  - exists s. reflexivity.
  - apply Forall_cons in Hall as [[Hrk Hx] Hall]. cbn [fst snd] in Hrk, Hx.
    destruct (WfFacts.Wire_set_done rk fuel u x s Hwf Hx Hrk)
      as (s1 & Hrun & _).
    pose proof (CascadeFacts.Wire_set_steps fuel u x s) as Hsteps.
    rewrite Hrun in Hsteps. cbn [fst] in Hsteps.
    destruct (WfFacts.steps_keep rk _ _ Hsteps Hwf) as [Hwf1 _].
    destruct (IH s1 Hwf1 Hall) as (s' & Hrest).
    exists s'. unfold do_sets. cbn [forM_]. unfold bind. rewrite Hrun.
    exact Hrest.
Qed.

(** *** [Converter(outputs)] registers the new converter *)

Lemma add_observers_elem o (l : list nat) : forall s,
  exists s',
    forM_ l (fun w => Observable_add_observer w o) s = (s', Done tt)
    /\ (forall w, value_of s' w = value_of s w)
    /\ (forall c, converter_at s' c = converter_at s c)
    /\ (forall w x, x ∈ observers_of s w -> x ∈ observers_of s' w)
    /\ (forall w, w ∈ l -> o ∈ observers_of s' w).
Proof.
  induction l as [|u l IH]; intros s.
  - exists s. repeat (split; [reflexivity || auto|]).
    intros w Hw. now apply elem_of_nil in Hw.
  - cbn [forM_]. unfold bind. cbn [Observable_add_observer modify].
    destruct (IH (push_observer u o s)) as (s' & -> & Hv & Hc & Hmono & Hin).
    exists s'. split; [reflexivity|].
    split; [|split; [|split]].
    + intros w. rewrite Hv. now autorewrite with store.
    + intros c. rewrite Hc. now autorewrite with store.
    + intros w x Hx. apply Hmono.
      rewrite StoreFacts.observers_of_push_observer. case_decide; [|exact Hx].
      subst. apply elem_of_app. now left.
    + intros w Hw. apply elem_of_cons in Hw as [->|Hw]; [|now apply Hin].
      apply Hmono.
      rewrite StoreFacts.observers_of_push_observer_eq by reflexivity.
      apply elem_of_app. right. apply elem_of_cons. now left.
Qed.

Lemma Converter_init_registered outs s :
  exists s',
    Converter_init outs s = (s', Done (next_converter s))
    /\ converter_at s' (next_converter s) = mkConverter outs None None
    /\ (forall w, value_of s' w = value_of s w)
    /\ registered (next_converter s) s'.
Proof.
  unfold Converter_init. unfold bind at 1.
  destruct (add_observers_elem (ConverterRef (next_converter s)) outs
              (alloc_converter outs s)) as (s' & Hrun & Hv & Hc & _ & Hin).
  unfold bind at 1. rewrite Hrun. exists s'. split; [reflexivity|].
  assert (converter_at s' (next_converter s) = mkConverter outs None None)
    as Hconv.
  { rewrite Hc, StoreFacts.converter_at_alloc_converter.
    now rewrite decide_True. }
  split; [exact Hconv|]. split.
  - intros w. now rewrite Hv.
  - intros u. rewrite Hconv. cbn [c_outputs]. apply Hin.
Qed.

End SyncFacts.
Example add_doctests :
  Sim.run (Sim.add 4 1 2 32) = Sim.Done 3 /\
  Sim.run (Sim.add 4 255 1 8) = Sim.Done 0 /\
  Sim.run (Sim.add 4 100 200 8) = Sim.Done 44 /\
  Sim.run (Sim.add 4 (-42) 42 32) = Sim.Done 0 /\
  Sim.run (Sim.add 4 (-1000) (-1) 32) = Sim.Done (-1001) /\
  Sim.run (Sim.add 4 1 (-1000) 32) = Sim.Done (-999) /\
  Sim.run (Sim.add 4 127 128 8) = Sim.Done (-1) /\
  Sim.run (Sim.add 4 1 1 2) = Sim.Done (-2).
Proof. vm_compute. repeat split. Qed.
(** C2. For every integer [n] (negative or not) and every [num_bits >= 0],
    [to_binary n num_bits] has exactly [num_bits] elements, each 0 or 1,
    least-significant first (element [i] is bit [i] of [n]), and its
    little-endian value is [n mod 2^num_bits]; the loop stops because its
    guard is false, not because the iteration bound was reached. *)
Theorem to_binary_spec (n num_bits : Z) :
  0 <= num_bits ->
  Z.of_nat (length (Codec.to_binary n num_bits)) = num_bits /\
  Forall Codec.is_bit (Codec.to_binary n num_bits) /\
  (forall i : nat, Z.of_nat i < num_bits ->
     Codec.to_binary n num_bits !! i = Some (Z.b2z (Z.testbit n (Z.of_nat i)))) /\
  Codec.le_value (Codec.to_binary n num_bits) = n mod 2 ^ num_bits /\
  (Z.of_nat (length (Codec.to_binary n num_bits)) <? num_bits) = false.
Proof.
  intros Hnb. rewrite CodecFacts.to_binary_low_bits.
  rewrite CodecFacts.low_bits_length, Z2Nat.id by lia.
  repeat split.
  - apply CodecFacts.low_bits_bits.
  - intros i Hi. apply CodecFacts.low_bits_lookup. lia.
  - rewrite CodecFacts.low_bits_value. now rewrite Z2Nat.id by lia.
  - apply Z.ltb_irrefl.
Qed.

Lemma to_binary_spec_witness :
  Z.of_nat (length (Codec.to_binary (-1000) 12)) = 12 /\
  Codec.le_value (Codec.to_binary (-1000) 12) = (-1000) mod 2 ^ 12.
Proof.
  destruct (to_binary_spec (-1000) 12 ltac:(lia)) as (H1 & _ & _ & H2 & _).
  split; [exact H1 | exact H2].
Defined.

(** C3. Decoding after encoding is the identity on unsigned values that fit
    in the width. *)
Theorem from_binary_to_binary (v num_bits : Z) :
  0 <= v -> v < 2 ^ num_bits ->
  Codec.from_binary (Codec.to_binary v num_bits) = v.
Proof.
  intros Hv Hlt.
  assert (0 <= num_bits) as Hnb.
  { destruct (Z.leb_spec 0 num_bits); [lia|].
    rewrite Z.pow_neg_r in Hlt by lia. lia. }
  rewrite CodecFacts.to_binary_low_bits.
  rewrite CodecFacts.from_binary_le_value by apply CodecFacts.low_bits_bits.
  rewrite CodecFacts.low_bits_value, Z2Nat.id by lia.
  apply Z.mod_small. lia.
Qed.

Lemma from_binary_to_binary_witness :
  Codec.from_binary (Codec.to_binary 200 8) = 200.
Proof. apply from_binary_to_binary; [lia | reflexivity]. Defined.


(** C1. For all integers [a], [b] and every [num_bits >= 1], [add] returns
    the unique integer [r] congruent to [a + b] modulo [2^num_bits] with
    [-2^(num_bits-1) <= r <= 2^(num_bits-1) - 1]: with [s] the residue of
    [a + b] in [[0, 2^num_bits)], it is [s] when [s < 2^(num_bits-1)] and
    [s - 2^num_bits] otherwise.  This holds in whatever store the call
    starts, as soon as three nested [set] calls are allowed. *)
Theorem add_correct (fuel : nat) (a b num_bits : Z) (s : Sim.Store) :
  1 <= num_bits -> (3 <= fuel)%nat ->
  exists r,
    snd (Sim.add fuel a b num_bits s) = Sim.Done r
    /\ r = (let m := (a + b) mod 2 ^ num_bits in
            if m <? 2 ^ (num_bits - 1) then m else m - 2 ^ num_bits)
    /\ (r - (a + b)) mod 2 ^ num_bits = 0
    /\ - 2 ^ (num_bits - 1) <= r <= 2 ^ (num_bits - 1) - 1
    /\ (forall r',
          (r' - (a + b)) mod 2 ^ num_bits = 0 ->
          - 2 ^ (num_bits - 1) <= r' <= 2 ^ (num_bits - 1) - 1 ->
          r' = r).
Proof.
  intros Hnb Hfuel.
  destruct fuel as [|[|[|f]]]; try lia.
  exists (Circuit.wrapped_sum a b num_bits).
  destruct (AddFacts.wrapped_sum_range a b num_bits Hnb) as [Hrange Hcong].
  split; [now apply AddFacts.add_spec|].
  split; [reflexivity|]. split; [exact Hcong|]. split; [exact Hrange|].
  intros r' Hcong' Hrange'.
  now apply (AddFacts.signed_range_unique num_bits (a + b)).
Qed.

Lemma add_correct_witness :
  exists r, snd (Sim.add 3 127 128 8 Sim.empty_store) = Sim.Done r /\ r = -1.
Proof.
  destruct (add_correct 3 127 128 8 Sim.empty_store ltac:(lia) ltac:(lia))
    as (r & Hrun & Hr & _).
  exists r. split; [exact Hrun | exact Hr].
Defined.

(** C5. For every [num_bits >= 1] and all integers [a], [b]: when the
    input-driving loop of [add] has ended, every one of the [num_bits]
    output wires of the circuit is set, and the converter's [result] and
    [sign] can be read without error in that very store. *)
Theorem add_drive_completes (fuel : nat) (a b num_bits : Z) (s : Sim.Store) :
  1 <= num_bits -> (3 <= fuel)%nat ->
  exists s' outs r,
    Sim.add_drive fuel a b num_bits s = (s', Sim.Done (outs, r))
    /\ Z.of_nat (length outs) = num_bits
    /\ Forall (fun w => is_Some (Sim.value_of s' w)) outs
    /\ Sim.c_outputs (Sim.converter_at s' r) = outs
    /\ (exists res, Sim.Converter_get_result r s' = (s', Sim.Done res))
    /\ (exists sg, Sim.Converter_get_sign r s' = (s', Sim.Done sg)).
Proof.
  intros Hnb Hfuel.
  destruct fuel as [|[|[|f]]]; try lia.
  destruct (AddFacts.add_drive_spec f a b num_bits s)
    as (s' & Hrun & _ & HD & Houts & Hset).
  destruct Hset as [Hres Hsign]; [lia|].
  eexists s', _, _. split; [exact Hrun|].
  split; [rewrite length_map, length_seq; lia|].
  split; [|split; [exact Houts|]].
  - apply Forall_forall. intros w Hw.
    apply list_elem_of_In, in_map_iff in Hw as (i & <- & Hi).
    apply in_seq in Hi.
    rewrite (Circuit.driven_out _ _ _ _ _ _ HD i) by lia. eauto.
  - unfold Sim.Converter_get_result, Sim.Converter_get_sign.
    rewrite Hres, Hsign. eauto.
Qed.

Lemma add_drive_completes_witness :
  exists s' outs r,
    Sim.add_drive 3 100 200 8 Sim.empty_store = (s', Sim.Done (outs, r))
    /\ Forall (fun w => is_Some (Sim.value_of s' w)) outs.
Proof.
  destruct (add_drive_completes 3 100 200 8 Sim.empty_store
              ltac:(lia) ltac:(lia))
    as (s' & outs & r & Hrun & _ & Hall & _).
  exists s', outs, r. split; [exact Hrun | exact Hall].
Defined.

(** C9. [add] is commutative: for all integers [a], [b] and every
    [num_bits >= 1], [add(a, b, num_bits)] and [add(b, a, num_bits)] return
    the same integer. *)
Theorem add_comm (fuel : nat) (a b num_bits : Z) (s : Sim.Store) :
  1 <= num_bits -> (3 <= fuel)%nat ->
  snd (Sim.add fuel a b num_bits s) = snd (Sim.add fuel b a num_bits s)
  /\ exists r, snd (Sim.add fuel a b num_bits s) = Sim.Done r.
Proof.
  intros Hnb Hfuel.
  destruct fuel as [|[|[|f]]]; try lia.
  rewrite !AddFacts.add_spec by assumption.
  unfold Circuit.wrapped_sum. rewrite (Z.add_comm b a). eauto.
Qed.

Lemma add_comm_witness :
  snd (Sim.add 3 1 (-1000) 32 Sim.empty_store)
  = snd (Sim.add 3 (-1000) 1 32 Sim.empty_store).
Proof.
  apply (add_comm 3 1 (-1000) 32 Sim.empty_store); lia.
Defined.

(** C10. Zero is an identity on in-range values: for [num_bits >= 1] and
    [-2^(num_bits-1) <= a <= 2^(num_bits-1) - 1], [add(a, 0, num_bits)]
    returns [a]. *)
Theorem add_zero_r (fuel : nat) (a num_bits : Z) (s : Sim.Store) :
  1 <= num_bits -> (3 <= fuel)%nat ->
  - 2 ^ (num_bits - 1) <= a <= 2 ^ (num_bits - 1) - 1 ->
  snd (Sim.add fuel a 0 num_bits s) = Sim.Done a.
Proof.
  intros Hnb Hfuel Hrange.
  destruct fuel as [|[|[|f]]]; try lia.
  rewrite AddFacts.add_spec by assumption. f_equal.
  destruct (AddFacts.wrapped_sum_range a 0 num_bits Hnb) as [Hr Hc].
  apply (AddFacts.signed_range_unique num_bits (a + 0)); auto.
  replace (a - (a + 0)) with (0 * 2 ^ num_bits) by lia.
  apply Z.mod_mul.
  assert (0 < 2 ^ num_bits) by (apply Z.pow_pos_nonneg; lia). lia.
Qed.

Lemma add_zero_r_witness :
  snd (Sim.add 3 (-128) 0 8 Sim.empty_store) = Sim.Done (-128).
Proof.
  apply add_zero_r; [lia | lia | ].
  change (2 ^ (8 - 1)) with 128. lia.
Defined.

(** C6, as stated, fails: a wire holding 0 accepts a second [set], here to
    1, and the new value replaces the old one. *)
Lemma Wire_set_twice_counterexample :
  Sim.value_of once_set 0 = Some 0
  /\ snd (Sim.Wire_set 1 0 1 once_set) = Sim.Done tt
  /\ Sim.value_of (fst (Sim.Wire_set 1 0 1 once_set)) 0 = Some 1.
Proof. vm_compute. repeat split. Qed.

(** C6, amended. [Wire.set] has no already-set check: on a wire that
    already holds a value, a further [set] with a value in {0,1} does
    exactly what it does on the same wire holding no value, so the old
    value plays no part.  If the call returns, every observer of the wire
    has been notified again, in subscription order.  The call does return,
    with the new value in place of the old one, when the circuit is well
    formed (every stored value is 0 or 1; every gate found on a wire has
    its output on a wire of strictly lower rank; every converter found on a
    wire has a wire list that is not empty; every display found on a wire
    shows that wire) and the recursion bound exceeds the rank of the
    wire. *)
Theorem Wire_set_again (fuel w : nat) (v v0 : Z) (s : Sim.Store) :
  Sim.value_of s w = Some v0 -> Codec.is_bit v -> (1 <= fuel)%nat ->
  Sim.Wire_set fuel w v s = Sim.Wire_set fuel w v (Steps.clear_value w s)
  /\ (forall s',
        Sim.Wire_set fuel w v s = (s', Sim.Done tt) ->
        exists tr, Sim.calls s' = Sim.calls s ++ tr
                   /\ Sim.observers_of s w `sublist_of` tr)
  /\ (forall rk,
        Steps.wf_check rk s = true -> (rk w < fuel)%nat ->
        exists s',
          Sim.Wire_set fuel w v s = (s', Sim.Done tt)
          /\ Sim.value_of s' w = Some v
          /\ exists tr, Sim.calls s' = Sim.calls s ++ tr
                        /\ Sim.observers_of s w `sublist_of` tr).
Proof.
  intros _ Hv Hfuel. split; [|split].
  - symmetry. now apply NotifyFacts.Wire_set_clear_value.
  - intros s'. apply NotifyFacts.Wire_set_done_calls.
  - intros rk Hwf Hrk.
    destruct (WfFacts.Wire_set_done rk fuel w v s)
      as (s' & Hrun & Hval & _ & Htr); auto using WfFacts.wf_check_WfP.
    exists s'. auto.
Qed.

Lemma Wire_set_again_witness :
  Sim.Wire_set 2 1 0 and_gate_fired
  = Sim.Wire_set 2 1 0 (Steps.clear_value 1 and_gate_fired)
  /\ exists s',
       Sim.Wire_set 2 1 0 and_gate_fired = (s', Sim.Done tt)
       /\ Sim.value_of s' 1 = Some 0.
Proof.
  destruct (Wire_set_again 2 1 0 1 and_gate_fired) as (Hsame & _ & Hwf).
  - vm_compute. reflexivity.
  - left. reflexivity.
  - lia.
  - split; [exact Hsame|].
    destruct (Hwf and_gate_rank) as (s' & Hrun & Hval & _).
    + vm_compute. reflexivity.
    + vm_compute. lia.
    + exists s'. split; [exact Hrun | exact Hval].
Defined.

(** C7, as stated, fails: on a wire observed by a converter built over no
    wire, [set(1)] raises [IndexError] although 1 is in {0,1}, and the
    wire, unset before, holds 1 after the failed call. *)
Lemma Wire_set_bit_raises_counterexample :
  Sim.in_0_1 1 = true
  /\ Sim.value_of empty_converter_observed 0 = None
  /\ snd (Sim.Wire_set 1 0 1 empty_converter_observed)
     = Sim.Raise Sim.IndexError
  /\ Sim.value_of (fst (Sim.Wire_set 1 0 1 empty_converter_observed)) 0
     = Some 1.
Proof. vm_compute. repeat split. Qed.

(** C7, amended. [Wire.set(value)] raises [AssertionError] with nothing
    done (the wire's value is what it was, unset if it was unset, and no
    observer is notified) exactly when [value] is not 0 or 1.  When
    [value] is 0 or 1 the wire holds a value after the call however the
    call ends, the first observer, if there is one, has been notified, and
    if the call returns every observer of the wire has been notified, in
    subscription order.  When the circuit is well formed (every stored
    value is 0 or 1; every gate found on a wire has its output on a wire of
    strictly lower rank; every converter found on a wire has a wire list
    that is not empty; every display found on a wire shows that wire) and
    the recursion bound exceeds the rank of the wire, the call raises
    exactly when [value] is not 0 or 1, and otherwise returns with
    [value] recorded and every observer notified. *)
Theorem Wire_set_outcomes (fuel w : nat) (v : Z) (s : Sim.Store) :
  (1 <= fuel)%nat ->
  (Sim.Wire_set fuel w v s = (s, Sim.Raise Sim.AssertionError)
   <-> ~ Codec.is_bit v)
  /\ (Codec.is_bit v ->
      is_Some (Sim.value_of (fst (Sim.Wire_set fuel w v s)) w))
  /\ (Codec.is_bit v ->
      forall o obs, Sim.observers_of s w = o :: obs ->
        exists tr,
          Sim.calls (fst (Sim.Wire_set fuel w v s)) = Sim.calls s ++ o :: tr)
  /\ (forall s',
        Sim.Wire_set fuel w v s = (s', Sim.Done tt) ->
        Codec.is_bit v
        /\ exists tr, Sim.calls s' = Sim.calls s ++ tr
                      /\ Sim.observers_of s w `sublist_of` tr)
  /\ (forall rk,
        Steps.wf_check rk s = true -> (rk w < fuel)%nat ->
        ((exists e, snd (Sim.Wire_set fuel w v s) = Sim.Raise e)
         <-> ~ Codec.is_bit v)
        /\ (Codec.is_bit v ->
            exists s',
              Sim.Wire_set fuel w v s = (s', Sim.Done tt)
              /\ Sim.value_of s' w = Some v
              /\ exists tr, Sim.calls s' = Sim.calls s ++ tr
                            /\ Sim.observers_of s w `sublist_of` tr)).
Proof.
  intros Hfuel.
  assert (~ Codec.is_bit v ->
          Sim.Wire_set fuel w v s = (s, Sim.Raise Sim.AssertionError)) as Hbad.
  { intros Hv. destruct fuel as [|fuel]; [lia|].
    now apply ExecFacts.Wire_set_not_bit. }
  split; [|split; [|split; [|split]]].
  - split; [|exact Hbad]. intros Hrun Hv.
    now apply (NotifyFacts.Wire_set_bit_not_own_failure fuel w v s).
  - intros Hv. now apply NotifyFacts.Wire_set_bit_sets.
  - intros Hv o obs Hobs. destruct fuel as [|fuel]; [lia|].
    rewrite ExecFacts.Wire_set_bit, Hobs by assumption.
    destruct (NotifyFacts.notify_cons_calls (Sim.Wire_set fuel)
                (CascadeFacts.Wire_set_steps fuel) o obs
                (Sim.write_value w v s)) as [tr Htr].
    exists tr. now rewrite Htr, StoreFacts.calls_write_value.
  - intros s' Hrun. split.
    + now apply (NotifyFacts.Wire_set_done_bit fuel w v s s').
    + now apply (NotifyFacts.Wire_set_done_calls fuel w v s s').
  - intros rk Hwf Hrk.
    assert (Codec.is_bit v ->
            exists s',
              Sim.Wire_set fuel w v s = (s', Sim.Done tt)
              /\ Sim.value_of s' w = Some v
              /\ exists tr, Sim.calls s' = Sim.calls s ++ tr
                            /\ Sim.observers_of s w `sublist_of` tr)
      as Hgood.
    { intros Hv.
      destruct (WfFacts.Wire_set_done rk fuel w v s)
        as (s' & Hrun & Hval & _ & Htr); auto using WfFacts.wf_check_WfP.
      exists s'. auto. }
    split; [|exact Hgood]. split.
    + intros [e He] Hv. destruct (Hgood Hv) as (s' & Hrun & _).
      rewrite Hrun in He. discriminate.
    + intros Hv. rewrite (Hbad Hv). eauto.
Qed.

Lemma Wire_set_outcomes_witness :
  Sim.Wire_set 2 1 2 and_gate_fired
    = (and_gate_fired, Sim.Raise Sim.AssertionError)
  /\ is_Some (Sim.value_of
                (fst (Sim.Wire_set 1 0 1 empty_converter_observed)) 0)
  /\ exists s',
       Sim.Wire_set 2 1 1 and_gate_fired = (s', Sim.Done tt)
       /\ Sim.value_of s' 1 = Some 1.
Proof.
  destruct (Wire_set_outcomes 2 1 2 and_gate_fired) as ((_ & Hbad) & _);
    [lia|].
  destruct (Wire_set_outcomes 1 0 1 empty_converter_observed)
    as (_ & Hset & _); [lia|].
  destruct (Wire_set_outcomes 2 1 1 and_gate_fired) as (_ & _ & _ & _ & Hwf);
    [lia|].
  split; [|split].
  - apply Hbad. unfold Codec.is_bit. lia.
  - apply Hset. right. reflexivity.
  - destruct (Hwf and_gate_rank) as (_ & Hgood).
    + vm_compute. reflexivity.
    + vm_compute. lia.
    + destruct Hgood as (s' & Hrun & Hval & _); [right; reflexivity|].
      exists s'. split; [exact Hrun | exact Hval].
Defined.




(** C4. For all bits [x], [y], [c]: build a full adder on five new wires,
    then set its two inputs to [x] and [y] and its carry-in to [c], each
    once, in any order.  The sum wire and the carry-out wire are then both
    set, and [sum + 2 * carry_out = x + y + c]. *)
Theorem full_adder_any_order (fuel : nat) (order : list AdderInput)
    (x y c : Z) :
  Codec.is_bit x -> Codec.is_bit y -> Codec.is_bit c ->
  order ≡ₚ [Input1; Input2; CarryIn] -> (3 <= fuel)%nat ->
  exists s' out carry_out sm cr,
    full_adder_trial fuel order x y c Sim.empty_store
      = (s', Sim.Done (out, carry_out))
    /\ Sim.value_of s' out = Some sm
    /\ Sim.value_of s' carry_out = Some cr
    /\ sm + 2 * cr = x + y + c.
Proof.
  intros Hx Hy Hc Hperm Hfuel.
  replace fuel with ((fuel - 3) + 3)%nat by lia.
  symmetry in Hperm. apply permutations_Permutation in Hperm.
  vm_compute in Hperm.
  repeat (apply elem_of_cons in Hperm as [->|Hperm]);
    [..|now apply elem_of_nil in Hperm].
  all: destruct Hx as [->| ->], Hy as [->| ->], Hc as [->| ->].
  all: rewrite FuelFacts.full_adder_trial_more by (vm_compute; discriminate).
  all: match goal with
       | |- context [full_adder_trial 3 ?o ?a ?b ?d Sim.empty_store] =>
           set (r := full_adder_trial 3 o a b d Sim.empty_store);
           vm_compute in r; subst r
       end.
  all: eexists _, _, _, _, _; split; [reflexivity|].
  all: split; [vm_compute; reflexivity|].
  all: split; [vm_compute; reflexivity|reflexivity].
Qed.

Lemma full_adder_any_order_witness :
  exists s' out carry_out sm cr,
    full_adder_trial 3 [Input2; Input1; CarryIn] 1 1 1 Sim.empty_store
      = (s', Sim.Done (out, carry_out))
    /\ Sim.value_of s' out = Some sm
    /\ Sim.value_of s' carry_out = Some cr
    /\ sm + 2 * cr = 1 + 1 + 1.
Proof.
  apply full_adder_any_order; [right; reflexivity..| |lia].
  apply perm_swap.
Defined.

(** * Further properties *)

(** X1. [from_binary] of a list of bits is its little-endian value, the
    sum of [d_i * 2^i]; it lies in [[0, 2^len)], so the empty list decodes
    to 0. *)
Theorem from_binary_value (l : list Z) :
  Forall Codec.is_bit l ->
  Codec.from_binary l = Codec.le_value l
  /\ 0 <= Codec.from_binary l < 2 ^ Z.of_nat (length l).
Proof.
  intros Hl. rewrite CodecFacts.from_binary_le_value by assumption.
  split; [reflexivity|]. now apply CodecFacts.le_value_bounds.
Qed.

Lemma from_binary_value_witness :
  Codec.from_binary [0; 1; 0; 0; 0; 0; 0; 0] = 2 /\ Codec.from_binary [] = 0.
Proof.
  split.
  - apply (from_binary_value [0; 1; 0; 0; 0; 0; 0; 0]).
    repeat (constructor; [unfold Codec.is_bit; lia|]). constructor.
  - apply (from_binary_value []). constructor.
Defined.

(** X2. [to_binary] silently drops the bits that do not fit: it gives the
    same list for [n] and for [n mod 2^num_bits]. *)
Theorem to_binary_truncates (n num_bits : Z) :
  0 <= num_bits ->
  Codec.to_binary n num_bits = Codec.to_binary (n mod 2 ^ num_bits) num_bits.
Proof.
  intros Hnb. rewrite !CodecFacts.to_binary_low_bits.
  apply list_eq. intros i.
  destruct (decide (i < Z.to_nat num_bits)%nat) as [Hi|Hi].
  - rewrite !CodecFacts.low_bits_lookup by assumption.
    rewrite Z.mod_pow2_bits_low by lia. reflexivity.
  - rewrite !lookup_ge_None_2; [reflexivity| |];
      rewrite CodecFacts.low_bits_length; lia.
Qed.

Lemma to_binary_truncates_witness :
  Codec.to_binary 256 8 = Codec.to_binary (256 mod 2 ^ 8) 8.
Proof. apply to_binary_truncates. lia. Defined.

(** X3. With [num_bits <= 0] the loop of [to_binary] never runs and the
    result is the empty list, whatever [n] is. *)
Theorem to_binary_no_bits (n num_bits : Z) :
  num_bits <= 0 -> Codec.to_binary n num_bits = [].
Proof.
  intros Hnb. rewrite CodecFacts.to_binary_low_bits.
  now replace (Z.to_nat num_bits) with O by lia.
Qed.

Lemma to_binary_no_bits_witness : Codec.to_binary (-5) (-3) = [].
Proof. apply to_binary_no_bits. lia. Defined.

(** X4. Encoding after decoding: for a list [l] of bits,
    [to_binary (from_binary l) (len l)] is [l] again. *)
Theorem to_binary_from_binary (l : list Z) :
  Forall Codec.is_bit l ->
  Codec.to_binary (Codec.from_binary l) (Z.of_nat (length l)) = l.
Proof.
  intros Hl. rewrite CodecFacts.from_binary_le_value by assumption.
  rewrite CodecFacts.to_binary_low_bits, Nat2Z.id.
  induction Hl as [|d l Hd Hl IH]; [reflexivity|].
  cbn [length Codec.low_bits Codec.le_value].
  rewrite CodecFacts.land_1_mod, CodecFacts.shiftr_1_div.
  rewrite (Z.mul_comm 2), Z.mod_add, Z.div_add by lia.
  destruct Hd as [->| ->].
  - change (0 / 2) with 0. change (0 mod 2) with 0.
    now rewrite Z.add_0_l, IH.
  - change (1 / 2) with 0. change (1 mod 2) with 1.
    now rewrite Z.add_0_l, IH.
Qed.

Lemma to_binary_from_binary_witness :
  Codec.to_binary (Codec.from_binary [1; 0; 1; 1]) 4 = [1; 0; 1; 1].
Proof.
  apply (to_binary_from_binary [1; 0; 1; 1]).
  repeat (constructor; [unfold Codec.is_bit; lia|]). constructor.
Defined.

(** X5. When the true sum fits in [num_bits] bits, [add] returns it. *)
Theorem add_exact (fuel : nat) (a b num_bits : Z) (s : Sim.Store) :
  1 <= num_bits -> (3 <= fuel)%nat ->
  - 2 ^ (num_bits - 1) <= a + b <= 2 ^ (num_bits - 1) - 1 ->
  snd (Sim.add fuel a b num_bits s) = Sim.Done (a + b).
Proof.
  intros Hnb Hfuel Hrange.
  destruct fuel as [|[|[|f]]]; try lia.
  rewrite AddFacts.add_spec by assumption. f_equal.
  destruct (AddFacts.wrapped_sum_range a b num_bits Hnb) as [Hr Hc].
  apply (AddFacts.signed_range_unique num_bits (a + b)); auto.
  rewrite Z.sub_diag. apply Z.mod_0_l.
  assert (0 < 2 ^ num_bits) by (apply Z.pow_pos_nonneg; lia). lia.
Qed.

Lemma add_exact_witness :
  snd (Sim.add 3 (-1000) (-1) 32 Sim.empty_store) = Sim.Done (-1000 + -1).
Proof.
  apply add_exact; [lia | lia |].
  change (2 ^ (32 - 1)) with 2147483648. lia.
Defined.

(** X6. Chained additions associate: adding [c] to the result of
    [add(a, b)] gives the same integer as adding [a] to the result of
    [add(b, c)], at the same width, wrap-around included. *)
Theorem add_assoc (fuel : nat) (a b c num_bits : Z) (s : Sim.Store) :
  1 <= num_bits -> (3 <= fuel)%nat ->
  exists ab bc r,
    snd (Sim.add fuel a b num_bits s) = Sim.Done ab
    /\ snd (Sim.add fuel b c num_bits s) = Sim.Done bc
    /\ snd (Sim.add fuel ab c num_bits s) = Sim.Done r
    /\ snd (Sim.add fuel a bc num_bits s) = Sim.Done r.
Proof.
  intros Hnb Hfuel.
  destruct fuel as [|[|[|f]]]; try lia.
  exists (Circuit.wrapped_sum a b num_bits), (Circuit.wrapped_sum b c num_bits),
    (Circuit.wrapped_sum a (Circuit.wrapped_sum b c num_bits) num_bits).
  rewrite !AddFacts.add_spec by assumption.
  split; [reflexivity|]. split; [reflexivity|]. split; [|reflexivity].
  f_equal.
  assert (0 < 2 ^ num_bits) as Hpos by (apply Z.pow_pos_nonneg; lia).
  destruct (AddFacts.wrapped_sum_range a b num_bits Hnb) as [_ Hab].
  destruct (AddFacts.wrapped_sum_range b c num_bits Hnb) as [_ Hbc].
  destruct (AddFacts.wrapped_sum_range
              (Circuit.wrapped_sum a b num_bits) c num_bits Hnb) as [Hr1 Hc1].
  destruct (AddFacts.wrapped_sum_range
              a (Circuit.wrapped_sum b c num_bits) num_bits Hnb) as [Hr2 Hc2].
  apply Z.mod_divide in Hab, Hbc, Hc1, Hc2; try lia.
  apply (AddFacts.signed_range_unique num_bits (a + b + c)); auto.
  - apply Z.mod_divide; [lia|].
    replace (Circuit.wrapped_sum a (Circuit.wrapped_sum b c num_bits) num_bits
             - (a + b + c))
      with ((Circuit.wrapped_sum a (Circuit.wrapped_sum b c num_bits) num_bits
             - (a + Circuit.wrapped_sum b c num_bits))
            + (Circuit.wrapped_sum b c num_bits - (b + c))) by lia.
    now apply Z.divide_add_r.
  - apply Z.mod_divide; [lia|].
    replace (Circuit.wrapped_sum (Circuit.wrapped_sum a b num_bits) c num_bits
             - (a + b + c))
      with ((Circuit.wrapped_sum (Circuit.wrapped_sum a b num_bits) c num_bits
             - (Circuit.wrapped_sum a b num_bits + c))
            + (Circuit.wrapped_sum a b num_bits - (a + b))) by lia.
    now apply Z.divide_add_r.
Qed.

Lemma add_assoc_witness :
  exists ab bc r,
    snd (Sim.add 3 100 100 8 Sim.empty_store) = Sim.Done ab
    /\ snd (Sim.add 3 100 (-60) 8 Sim.empty_store) = Sim.Done bc
    /\ snd (Sim.add 3 ab (-60) 8 Sim.empty_store) = Sim.Done r
    /\ snd (Sim.add 3 100 bc 8 Sim.empty_store) = Sim.Done r.
Proof. apply add_assoc; lia. Defined.



(** X8. A two-input gate on three new wires: once both inputs have been
    set, in either order, the output wire holds [x & y], [x | y] or
    [x ^ y] according to the gate's class, which for bits is the AND, OR
    or XOR truth table. *)
Theorem gate_fires (fuel : nat) (op : Sim.Operation) (order : list GateInput)
    (x y : Z) :
  Codec.is_bit x -> Codec.is_bit y ->
  order ≡ₚ [GateInput1; GateInput2] -> (2 <= fuel)%nat ->
  exists s' out,
    gate_trial fuel op order x y Sim.empty_store = (s', Sim.Done out)
    /\ Sim.value_of s' out = Some (Sim.operation op x y)
    /\ Sim.operation op x y
       = match op with
         | Sim.And => x * y
         | Sim.Or => x + y - x * y
         | Sim.Xor => x + y - 2 * x * y
         end.
Proof.
  intros Hx Hy Hperm Hfuel.
  replace fuel with ((fuel - 2) + 2)%nat by lia.
  symmetry in Hperm. apply permutations_Permutation in Hperm.
  vm_compute in Hperm.
  repeat (apply elem_of_cons in Hperm as [->|Hperm]);
    [..|now apply elem_of_nil in Hperm].
  all: destruct Hx as [->| ->], Hy as [->| ->], op.
  all: rewrite FuelFacts.gate_trial_more by (vm_compute; discriminate).
  all: match goal with
       | |- context [gate_trial 2 ?o ?l ?a ?b Sim.empty_store] =>
           set (r := gate_trial 2 o l a b Sim.empty_store);
           vm_compute in r; subst r
       end.
  all: eexists _, _; split; [reflexivity|].
  all: split; [vm_compute; reflexivity|reflexivity].
Qed.

Lemma gate_fires_witness :
  exists s' out,
    gate_trial 2 Sim.Xor [GateInput2; GateInput1] 1 1 Sim.empty_store
      = (s', Sim.Done out)
    /\ Sim.value_of s' out = Some (Sim.operation Sim.Xor 1 1).
Proof.
  destruct (gate_fires 2 Sim.Xor [GateInput2; GateInput1] 1 1)
    as (s' & out & Hrun & Hval & _);
    [right; reflexivity | right; reflexivity | apply perm_swap | lia |].
  exists s', out. split; [exact Hrun | exact Hval].
Defined.

(** X9. A gate with only one input set does nothing: the call that sets
    the input completes and the output wire stays unset. *)
Theorem gate_waits (fuel : nat) (op : Sim.Operation) (i : GateInput)
    (x y : Z) :
  Codec.is_bit x -> Codec.is_bit y -> (1 <= fuel)%nat ->
  exists s' out,
    gate_trial fuel op [i] x y Sim.empty_store = (s', Sim.Done out)
    /\ Sim.value_of s' out = None.
Proof.
  intros Hx Hy Hfuel.
  replace fuel with ((fuel - 1) + 1)%nat by lia.
  destruct Hx as [->| ->], Hy as [->| ->], op, i.
  all: rewrite FuelFacts.gate_trial_more by (vm_compute; discriminate).
  all: match goal with
       | |- context [gate_trial 1 ?o ?l ?a ?b Sim.empty_store] =>
           set (r := gate_trial 1 o l a b Sim.empty_store);
           vm_compute in r; subst r
       end.
  all: eexists _, _; split; [reflexivity|vm_compute; reflexivity].
Qed.

Lemma gate_waits_witness :
  exists s' out,
    gate_trial 1 Sim.And [GateInput1] 1 1 Sim.empty_store = (s', Sim.Done out)
    /\ Sim.value_of s' out = None.
Proof. apply gate_waits; [right; reflexivity..|lia]. Defined.

(** X10. A half adder on four new wires: once both inputs have been set,
    in either order, the sum wire holds [x ^ y] and the carry wire
    [x & y], so that [sum + 2 * carry = x + y]. *)
Theorem half_adder_adds (fuel : nat) (order : list GateInput) (x y : Z) :
  Codec.is_bit x -> Codec.is_bit y ->
  order ≡ₚ [GateInput1; GateInput2] -> (2 <= fuel)%nat ->
  exists s' out carry,
    half_adder_trial fuel order x y Sim.empty_store
      = (s', Sim.Done (out, carry))
    /\ Sim.value_of s' out = Some (Z.lxor x y)
    /\ Sim.value_of s' carry = Some (Z.land x y)
    /\ Z.lxor x y + 2 * Z.land x y = x + y.
Proof.
  intros Hx Hy Hperm Hfuel.
  replace fuel with ((fuel - 2) + 2)%nat by lia.
  symmetry in Hperm. apply permutations_Permutation in Hperm.
  vm_compute in Hperm.
  repeat (apply elem_of_cons in Hperm as [->|Hperm]);
    [..|now apply elem_of_nil in Hperm].
  all: destruct Hx as [->| ->], Hy as [->| ->].
  all: rewrite FuelFacts.half_adder_trial_more by (vm_compute; discriminate).
  all: match goal with
       | |- context [half_adder_trial 2 ?l ?a ?b Sim.empty_store] =>
           set (r := half_adder_trial 2 l a b Sim.empty_store);
           vm_compute in r; subst r
       end.
  all: eexists _, _, _; split; [reflexivity|].
  all: split; [vm_compute; reflexivity|].
  all: split; [vm_compute; reflexivity|reflexivity].
Qed.

Lemma half_adder_adds_witness :
  exists s' out carry,
    half_adder_trial 2 [GateInput1; GateInput2] 1 1 Sim.empty_store
      = (s', Sim.Done (out, carry))
    /\ Sim.value_of s' out = Some 0
    /\ Sim.value_of s' carry = Some 1.
Proof.
  destruct (half_adder_adds 2 [GateInput1; GateInput2] 1 1)
    as (s' & out & carry & Hrun & Hsum & Hcarry & _);
    [right; reflexivity | right; reflexivity | reflexivity | lia |].
  exists s', out, carry. split; [exact Hrun|]. split; [exact Hsum | exact Hcarry].
Defined.

(** X11. Setting a wire observed by displays prints one line per display,
    in subscription order, each with the display's name and the new
    value; the call completes and records the value. *)
Theorem displays_print (fuel : nat) (names : list string) (w : nat) (v : Z)
    (s : Sim.Store) :
  Sim.observers_of s w = map (fun n => Sim.DisplayOf n w) names ->
  Codec.is_bit v -> (1 <= fuel)%nat ->
  exists s',
    Sim.Wire_set fuel w v s = (s', Sim.Done tt)
    /\ Sim.stdout s' = Sim.stdout s ++ map (fun n => (n, v)) names
    /\ Sim.value_of s' w = Some v.
Proof.
  intros Hobs Hv Hfuel. destruct fuel as [|fuel]; [lia|].
  rewrite ExecFacts.Wire_set_bit, Hobs by assumption.
  assert (Sim.value_of (Sim.write_value w v s) w = Some v) as Hw
    by now rewrite StoreFacts.value_of_write_value_eq.
  change (Sim.stdout s) with (Sim.stdout (Sim.write_value w v s)).
  generalize dependent (Sim.write_value w v s). clear Hobs.
  induction names as [|n names IH]; intros st Hw.
  - exists st. cbn. rewrite app_nil_r. auto.
  - cbn [map]. rewrite ExecFacts.notify_cons. cbn [Sim.update].
    rewrite ExecFacts.display_update_eq.
    autorewrite with store. rewrite Hw.
    destruct (IH (Sim.print n v (Sim.record_call (Sim.DisplayOf n w) st)))
      as (s' & -> & Hout & Hval); [now autorewrite with store|].
    exists s'. split; [reflexivity|]. split; [|exact Hval].
    rewrite Hout. autorewrite with store. now rewrite <- app_assoc.
Qed.

Lemma displays_print_witness :
  exists s',
    Sim.Wire_set 1 0 0 two_displays = (s', Sim.Done tt)
    /\ Sim.stdout s' = [("out1"%string, 0); ("out2"%string, 0)].
Proof.
  destruct (displays_print 1 ["out1"; "out2"]%string 0 0 two_displays)
    as (s' & Hrun & Hout & _);
    [vm_compute; reflexivity | left; reflexivity | lia |].
  exists s'. split; [exact Hrun | exact Hout].
Defined.

(** X12. [build_circuit(n)], called in any store, returns three lists of
    [max(n, 0)] wires each; the wires are new, pairwise distinct and
    unset, and the first carry, the wire allocated first, is set to 0. *)
Theorem build_circuit_shape (fuel : nat) (n : Z) (s : Sim.Store) :
  (1 <= fuel)%nat ->
  exists s' inputs1 inputs2 outs,
    Sim.build_circuit fuel n s = (s', Sim.Done (inputs1, inputs2, outs))
    /\ length inputs1 = Z.to_nat n
    /\ length inputs2 = Z.to_nat n
    /\ length outs = Z.to_nat n
    /\ NoDup (inputs1 ++ inputs2 ++ outs)
    /\ Forall (fun w => (Sim.next_wire s < w)%nat /\ Sim.value_of s' w = None)
              (inputs1 ++ inputs2 ++ outs)
    /\ Sim.value_of s' (Sim.next_wire s) = Some 0.
Proof.
  intros Hfuel. destruct fuel as [|fuel]; [lia|].
  destruct (BuildFacts.build_circuit_spec fuel n (fun _ => 0) (fun _ => 0) s)
    as (s' & Hrun & _ & _ & HD).
  destruct HD as [Vcarry _ Iin1 Iin2 Iout _ _ _ _].
  eexists s', _, _, _. split; [exact Hrun|].
  rewrite !length_map, !length_seq.
  split; [reflexivity|]. split; [reflexivity|]. split; [reflexivity|].
  set (b := Sim.next_wire s) in *. set (k := Z.to_nat n) in *.
  assert (forall w, w ∈ map (Circuit.in1 b) (seq 0 k) ->
            exists i, (i < k)%nat /\ w = Circuit.in1 b i) as E1.
  { intros w Hw. apply list_elem_of_In, in_map_iff in Hw as (i & <- & Hi).
    apply in_seq in Hi. exists i. split; [lia|reflexivity]. }
  assert (forall w, w ∈ map (Circuit.in2 b) (seq 0 k) ->
            exists i, (i < k)%nat /\ w = Circuit.in2 b i) as E2.
  { intros w Hw. apply list_elem_of_In, in_map_iff in Hw as (i & <- & Hi).
    apply in_seq in Hi. exists i. split; [lia|reflexivity]. }
  assert (forall w, w ∈ map (Circuit.out b) (seq 0 k) ->
            exists i, (i < k)%nat /\ w = Circuit.out b i) as E3.
  { intros w Hw. apply list_elem_of_In, in_map_iff in Hw as (i & <- & Hi).
    apply in_seq in Hi. exists i. split; [lia|reflexivity]. }
  assert (forall (g : nat -> nat), (forall i j, g i = g j -> i = j) ->
            NoDup (map g (seq 0 k))) as Hnd
    by (intros g Hinj; now apply BuildFacts.NoDup_map_seq).
  split; [|split].
  - apply NoDup_app. split; [|split].
    + apply Hnd. unfold Circuit.in1. intros; lia.
    + intros w (i & Hi & ->)%E1 Hw.
      apply elem_of_app in Hw as [(j & Hj & Heq)%E2|(j & Hj & Heq)%E3];
        unfold Circuit.in1, Circuit.in2, Circuit.out in Heq; lia.
    + apply NoDup_app. split; [|split].
      * apply Hnd. unfold Circuit.in2. intros; lia.
      * intros w (i & Hi & ->)%E2 (j & Hj & Heq)%E3.
        unfold Circuit.in2, Circuit.out in Heq. lia.
      * apply Hnd. unfold Circuit.out. intros; lia.
  - apply Forall_forall. intros w Hw.
    apply elem_of_app in Hw as [(i & Hi & ->)%E1|Hw];
      [split; [unfold Circuit.in1; lia|apply Iin1; lia]|].
    apply elem_of_app in Hw as [(i & Hi & ->)%E2|(i & Hi & ->)%E3].
    + split; [unfold Circuit.in2; lia|apply Iin2; lia].
    + split; [unfold Circuit.out; lia|apply Iout; lia].
  - replace b with (Circuit.carry b 0) at 1 by (unfold Circuit.carry; lia).
    exact Vcarry.
Qed.

Lemma build_circuit_shape_witness :
  exists s' inputs1 inputs2 outs,
    Sim.build_circuit 1 4 Sim.empty_store
      = (s', Sim.Done (inputs1, inputs2, outs))
    /\ length outs = 4%nat.
Proof.
  destruct (build_circuit_shape 1 4 Sim.empty_store ltac:(lia))
    as (s' & i1 & i2 & o & Hrun & _ & _ & Hlen & _).
  exists s', i1, i2, o. split; [exact Hrun | exact Hlen].
Defined.

(** X13. Whatever a [set] call does (complete, raise, or exceed its
    recursion bound), it leaves every observer list and every converter's
    wire list as they were, allocates nothing, and never unsets a wire. *)
Theorem Wire_set_keeps (fuel w : nat) (v : Z) (s : Sim.Store) :
  let s' := fst (Sim.Wire_set fuel w v s) in
  (forall u, Sim.observers_of s' u = Sim.observers_of s u)
  /\ (forall c, Sim.c_outputs (Sim.converter_at s' c)
                = Sim.c_outputs (Sim.converter_at s c))
  /\ (forall u, is_Some (Sim.value_of s u) -> is_Some (Sim.value_of s' u))
  /\ Sim.next_wire s' = Sim.next_wire s
  /\ Sim.next_converter s' = Sim.next_converter s.
Proof.
  intros s'. pose proof (CascadeFacts.Wire_set_steps fuel w v s) as Hsteps.
  fold s' in Hsteps.
  split; [now apply ConverterFacts.steps_observers|].
  split; [now apply ConverterFacts.steps_outputs|].
  split; [now apply ConverterFacts.steps_set_stays|].
  now apply ConverterFacts.steps_counters.
Qed.

Lemma Wire_set_keeps_witness :
  is_Some (Sim.value_of (fst (Sim.Wire_set 2 1 0 and_gate_fired)) 2).
Proof.
  destruct (Wire_set_keeps 2 1 0 and_gate_fired) as (_ & _ & Hstay & _).
  apply Hstay. vm_compute. eauto.
Defined.

(** X14. [Converter.update]: while one of its wires is unset it does
    nothing; when all are set it records the decoded value as result and
    the last (most significant) wire's value as sign; on an empty wire
    list it records result 0 and then raises [IndexError]. *)
Theorem Converter_update_cases (c : nat) (s : Sim.Store) :
  let outs := Sim.c_outputs (Sim.converter_at s c) in
  (forall w, w ∈ outs -> Sim.value_of s w = None ->
     Sim.Converter_update c s = (s, Sim.Done tt))
  /\ (forall bl sg, Sim.read_all s outs = Some bl -> last bl = Some sg ->
        exists s',
          Sim.Converter_update c s = (s', Sim.Done tt)
          /\ Sim.c_result (Sim.converter_at s' c) = Some (Codec.from_binary bl)
          /\ Sim.c_sign (Sim.converter_at s' c) = Some sg)
  /\ (outs = [] ->
        exists s',
          Sim.Converter_update c s = (s', Sim.Raise Sim.IndexError)
          /\ Sim.c_result (Sim.converter_at s' c) = Some 0
          /\ Sim.c_sign (Sim.converter_at s' c)
             = Sim.c_sign (Sim.converter_at s c)).
Proof.
  intros outs. subst outs. rewrite ExecFacts.converter_update_eq.
  split; [|split].
  - intros w Hin Hw. now rewrite (CascadeFacts.read_all_unset _ _ w).
  - intros bl sg -> ->. eexists. split; [reflexivity|].
    now autorewrite with store.
  - intros ->. cbn [Sim.read_all last]. eexists. split; [reflexivity|].
    now autorewrite with store.
Qed.

Lemma Converter_update_cases_witness :
  exists s',
    Sim.Converter_update 0 (fst (Sim.Converter_init [] Sim.empty_store))
    = (s', Sim.Raise Sim.IndexError)
    /\ Sim.c_result (Sim.converter_at s' 0) = Some 0.
Proof.
  destruct (Converter_update_cases 0
              (fst (Sim.Converter_init [] Sim.empty_store)))
    as (_ & _ & Hempty).
  destruct Hempty as (s' & Hrun & Hres & _); [vm_compute; reflexivity|].
  exists s'. split; [exact Hrun | exact Hres].
Defined.
